(** * Resume analyzer: a shallow embedding of [app_clean.py]

    The development follows the single source file of the application:
    the role catalog [JOB_ROLE_DATA], the item matcher
    [extract_items_from_text], the scorer [calculate_match], the
    recommender [top_3_suggestions] and the analysis body of [main].

    Modelling conventions.
    - A Python [str] is a [string]; its characters are read as the code
      points U+0000..U+00FF, on which [str.lower], [str.isspace] and the
      regular-expression class [\w] are tabulated below exactly as CPython
      computes them.
    - A Python [float] (a percentage, a similarity ratio) is an exact
      rational ([Q]); comparisons of finite floats are exact, and the
      rounding of quotients, products and sums is not modelled.
    - A Python list that is shared and updated in place lives in a store
      ([gmap] from references to lists); lists that are only read are
      plain values.
    - Exceptions are values of [result]. *)

From Stdlib Require Import QArith Qabs Lqa Ascii DecimalString.
From stdpp Require Import gmap gmultiset strings list sorting.

Local Open Scope Z_scope.
Local Open Scope nat_scope.

(** ** Python strings *)

Module PyStr.

Definition chars (s : string) : list ascii := String.list_ascii_of_string s.
Definition str (l : list ascii) : string := String.string_of_list_ascii l.

Definition code (c : ascii) : N := N_of_ascii c.

Definition between (lo hi : N) (c : ascii) : bool :=
  ((lo <=? code c) && (code c <=? hi))%N.

Definition is_code (n : N) (c : ascii) : bool := (code c =? n)%N.

(** [str.isspace] on U+0000..U+00FF: TAB..CR, FS..US, SPACE, NEL, NBSP. *)
Definition isspace (c : ascii) : bool :=
  between 9 13 c || between 28 32 c || is_code 133 c || is_code 160 c.

(** The class [\w] of [re] for [str] patterns on U+0000..U+00FF. *)
Definition is_word (c : ascii) : bool :=
  between 48 57 c || between 65 90 c || is_code 95 c || between 97 122 c
  || is_code 170 c || between 178 179 c || is_code 181 c
  || between 185 186 c || between 188 190 c
  || between 192 214 c || between 216 246 c || between 248 255 c.

(** ASCII letters and digits: what may not follow a backslash in a
    pattern without changing its meaning. *)
Definition is_ascii_alnum (c : ascii) : bool :=
  between 48 57 c || between 65 90 c || between 97 122 c.

Definition lower_char (c : ascii) : ascii :=
  if between 65 90 c || between 192 214 c || between 216 222 c
  then ascii_of_N (code c + 32)
  else c.

(** [s.lower()] *)
Definition lower (s : string) : string := str (map lower_char (chars s)).

(** [s.split()]: maximal runs of non-whitespace characters. [tok] is the
    run being read. *)
Fixpoint split_chars (tok : list ascii) (s : list ascii) : list (list ascii) :=
  match s with
  | [] => match tok with [] => [] | _ => [tok] end
  | c :: s' =>
      if isspace c
      then match tok with
           | [] => split_chars [] s'
           | _ => tok :: split_chars [] s'
           end
      else split_chars (tok ++ [c]) s'
  end.

Definition split (s : string) : list string :=
  map str (split_chars [] (chars s)).

(** [" ".join(l)] *)
Fixpoint join_space (l : list string) : string :=
  match l with
  | [] => ""
  | [s] => s
  | s :: l' => s +:+ " " +:+ join_space l'
  end.

(** An item is a multi-word phrase when it contains whitespace. *)
Definition has_space (s : string) : bool := existsb isspace (chars s).

End PyStr.

(** ** The fragment of [re] the matcher uses *)

Module Re.
Import PyStr.

(** [_special_chars_map] of [re.escape]:
    [()[]{}?*+-|^$\.&~# \t\n\r\v\f]. *)
Definition special_codes : list N :=
  [40; 41; 91; 93; 123; 125; 63; 42; 43; 45; 124; 94; 36; 92; 46; 38;
   126; 35; 32; 9; 10; 13; 11; 12]%N.

Definition is_special (c : ascii) : bool :=
  existsb (N.eqb (code c)) special_codes.

Definition backslash : ascii := ascii_of_N 92.

(** [re.escape(pattern)]: [pattern.translate(_special_chars_map)]. *)
Definition escape_chars (p : list ascii) : list ascii :=
  flat_map (fun c => if is_special c then [backslash; c] else [c]) p.

Definition escape (p : string) : string := str (escape_chars (chars p)).

(** Compiled patterns: a sequence of word-boundary assertions and
    literal characters. *)
Inductive atom : Type :=
| WordBoundary
| Lit (c : ascii).

(** The pattern language covered: [\b], a backslash followed by a
    character that is no ASCII letter or digit (that character,
    literally), and any character without special meaning.  Everything
    else is outside the fragment ([None]). *)
Fixpoint compile_chars (p : list ascii) : option (list atom) :=
  match p with
  | [] => Some []
  | c :: p' =>
      if is_code 92 c then
        match p' with
        | [] => None
        | d :: p'' =>
            if is_code 98 d then cons WordBoundary <$> compile_chars p''
            else if is_ascii_alnum d then None
            else cons (Lit d) <$> compile_chars p''
        end
      else if is_special c then None
      else cons (Lit c) <$> compile_chars p'
  end.

Definition compile (p : string) : option (list atom) :=
  compile_chars (chars p).

Definition word_opt (c : option ascii) : bool :=
  match c with Some x => is_word x | None => false end.

(** [\b] holds between [prev] and [next] when exactly one of them is a
    word character; the ends of the text count as non-word. *)
Definition at_boundary (prev next : option ascii) : bool :=
  xorb (word_opt prev) (word_opt next).

(** Match the atoms at the current position; [prev] is the character
    before it and [rest] the text from it on. *)
Fixpoint match_here (p : list atom) (prev : option ascii) (rest : list ascii) : bool :=
  match p with
  | [] => true
  | WordBoundary :: p' => at_boundary prev (head rest) && match_here p' prev rest
  | Lit c :: p' =>
      match rest with
      | x :: rest' => bool_decide (x = c) && match_here p' (Some x) rest'
      | [] => false
      end
  end.

(** Try every start position from left to right. *)
Fixpoint search_from (p : list atom) (prev : option ascii) (rest : list ascii) : bool :=
  match_here p prev rest
  || match rest with
     | [] => false
     | x :: rest' => search_from p (Some x) rest'
     end.

(** Truth value of [re.search(pattern, text)]; a pattern outside the
    fragment finds nothing. *)
Definition search (pattern text : string) : bool :=
  match compile pattern with
  | Some p => search_from p None (chars text)
  | None => false
  end.

End Re.

(** ** [difflib]: [SequenceMatcher] and [get_close_matches] *)

Module Difflib.
Import PyStr.

(** [Match(a, b, size)]: [a[a:a+size] == b[b:b+size]]. *)
Record Match : Type := mkMatch { blk_a : nat; blk_b : nat; blk_size : nat }.

(** A pending region [(alo, ahi, blo, bhi)] of the block search. *)
Definition region : Type := (nat * nat * nat * nat)%type.

(** [_calculate_ratio(matches, length)] *)
Definition calculate_ratio (matches length : nat) : Q :=
  match length with
  | 0 => 1
  | _ => Z.of_nat (2 * matches) # Pos.of_nat length
  end.

(** Equality of two subscripted elements; a subscript out of range
    compares unequal (the loops below test the bounds first). *)
Definition elt_eq (x y : option ascii) : bool :=
  match x, y with
  | Some c, Some d => bool_decide (c = d)
  | _, _ => false
  end.

(** Tuple order on blocks, as [list.sort] uses it. *)
Definition match_le (x y : Match) : Prop :=
  blk_a x < blk_a y
  ∨ (blk_a x = blk_a y
     ∧ (blk_b x < blk_b y ∨ (blk_b x = blk_b y ∧ blk_size x ≤ blk_size y))).

#[global] Instance match_le_dec : RelDecision match_le.
Proof. intros x y. unfold match_le. apply _. Defined.

Section SequenceMatcher.
(** [self.a] is the first sequence, [self.b] the second; the matcher is
    built by [SequenceMatcher()], so [isjunk] is [None] and [autojunk]
    is [True]. *)
Variables a b : list ascii.

(** [self.bjunk] stays empty without an [isjunk] function. *)
Definition isbjunk (c : ascii) : bool := false.

(** [__chain_b], first loop: the positions of every element of [b],
    in increasing order. *)
Definition b2j_all : gmap ascii (list nat) :=
  foldl (fun (b2j : gmap ascii (list nat)) (ie : nat * ascii) =>
           <[ie.2 := default [] (b2j !! ie.2) ++ [ie.1]]> b2j)
        ∅ (imap pair b).

(** [__chain_b], last loop: once [b] has 200 elements or more, the
    elements occurring more than [n // 100 + 1] times are purged. *)
Definition chain_b : gmap ascii (list nat) :=
  let n := length b in
  if 200 <=? n
  then filter (fun kv : ascii * list nat => length kv.2 ≤ n / 100 + 1) b2j_all
  else b2j_all.

(** [j2len.get(j-1, 0)]; for [j = 0] the key [-1] is never present. *)
Definition j2len_get (j2len : gmap nat nat) (j : nat) : nat :=
  match j with
  | 0 => 0
  | S j' => default 0 (j2len !! j')
  end.

(** The inner loop of [find_longest_match] over the positions [js] of
    [a[i]] in [b]; [i - k + 1] is written [i + 1 - k] because the
    subtraction of [nat] truncates. *)
Fixpoint flm_row (blo bhi i : nat) (j2len : gmap nat nat) (js : list nat)
    (newj2len : gmap nat nat) (best : Match) : gmap nat nat * Match :=
  match js with
  | [] => (newj2len, best)
  | j :: js' =>
      if j <? blo then flm_row blo bhi i j2len js' newj2len best
      else if bhi <=? j then (newj2len, best)
      else
        let k := j2len_get j2len j + 1 in
        let best' :=
          if blk_size best <? k then mkMatch (i + 1 - k) (j + 1 - k) k
          else best in
        flm_row blo bhi i j2len js' (<[j := k]> newj2len) best'
  end.

(** [b2j.get(a[i], nothing)] *)
Definition positions (i : nat) : list nat :=
  match a !! i with
  | Some x => default [] (chain_b !! x)
  | None => []
  end.

(** The outer loop: [for i in range(alo, ahi)]. *)
Definition flm_scan (alo ahi blo bhi : nat) : Match :=
  (foldl (fun (st : gmap nat nat * Match) (i : nat) =>
            flm_row blo bhi i st.1 (positions i) ∅ st.2)
         (∅, mkMatch alo blo 0) (seq alo (ahi - alo))).2.

Definition junk_at (j : nat) : bool :=
  match b !! j with
  | Some c => isbjunk c
  | None => false
  end.

(** [while besti > alo and bestj > blo and a[besti-1] == b[bestj-1]],
    with the test [isbjunk(b[bestj-1])] required to be [junk] ([False]
    in the first pair of loops, [True] in the second); one unit of fuel
    per position left of the block. *)
Fixpoint grow_left (fuel : nat) (junk : bool) (alo blo : nat) (m : Match) : Match :=
  match fuel with
  | 0 => m
  | S fuel' =>
      if (alo <? blk_a m) && (blo <? blk_b m)
         && eqb (junk_at (blk_b m - 1)) junk
         && elt_eq (a !! (blk_a m - 1)) (b !! (blk_b m - 1))
      then grow_left fuel' junk alo blo
             (mkMatch (blk_a m - 1) (blk_b m - 1) (blk_size m + 1))
      else m
  end.

(** [while besti+bestsize < ahi and bestj+bestsize < bhi and
    a[besti+bestsize] == b[bestj+bestsize]], with the same junk test;
    one unit of fuel per position right of the block. *)
Fixpoint grow_right (fuel : nat) (junk : bool) (ahi bhi : nat) (m : Match) : Match :=
  match fuel with
  | 0 => m
  | S fuel' =>
      if (blk_a m + blk_size m <? ahi) && (blk_b m + blk_size m <? bhi)
         && eqb (junk_at (blk_b m + blk_size m)) junk
         && elt_eq (a !! (blk_a m + blk_size m)) (b !! (blk_b m + blk_size m))
      then grow_right fuel' junk ahi bhi
             (mkMatch (blk_a m) (blk_b m) (blk_size m + 1))
      else m
  end.

(** [find_longest_match(alo, ahi, blo, bhi)]: the scan, then the four
    extension loops (non-junk left and right, junk left and right). *)
Definition find_longest_match (alo ahi blo bhi : nat) : Match :=
  let m0 := flm_scan alo ahi blo bhi in
  let m1 := grow_left (blk_a m0 - alo) false alo blo m0 in
  let m2 := grow_right (ahi - (blk_a m1 + blk_size m1)) false ahi bhi m1 in
  let m3 := grow_left (blk_a m2 - alo) true alo blo m2 in
  grow_right (ahi - (blk_a m3 + blk_size m3)) true ahi bhi m3.

(** The [while queue:] loop of [get_matching_blocks].  The head of
    [queue] is the end of the Python list ([pop] and [append] work
    there); [None] means the fuel ran out. *)
Fixpoint gmb_loop (fuel : nat) (queue : list region) (matching_blocks : list Match)
    : option (list Match) :=
  match queue with
  | [] => Some matching_blocks
  | (alo, ahi, blo, bhi) :: queue' =>
      match fuel with
      | 0 => None
      | S fuel' =>
          let x := find_longest_match alo ahi blo bhi in
          let i := blk_a x in
          let j := blk_b x in
          let k := blk_size x in
          if k =? 0 then gmb_loop fuel' queue' matching_blocks
          else
            let left := if (alo <? i) && (blo <? j) then [(alo, i, blo, j)] else [] in
            let right :=
              if (i + k <? ahi) && (j + k <? bhi) then [(i + k, ahi, j + k, bhi)] else [] in
            gmb_loop fuel' (right ++ left ++ queue') (matching_blocks ++ [x])
      end
  end.

(** Every turn of the loop removes a region and adds regions that are
    together strictly shorter, so [2 * len(a) + 1] turns are enough. *)
Definition gmb_fuel : nat := 2 * length a + 1.

Definition raw_blocks : list Match :=
  default [] (gmb_loop gmb_fuel [(0, length a, 0, length b)] []).

(** The loop collapsing adjacent blocks; the state is the block
    [(i1, j1, k1)] under comparison and [non_adjacent]. *)
Definition collapse_step (st : Match * list Match) (x : Match) : Match * list Match :=
  let cur := st.1 in
  if bool_decide (blk_a cur + blk_size cur = blk_a x)
     && bool_decide (blk_b cur + blk_size cur = blk_b x)
  then (mkMatch (blk_a cur) (blk_b cur) (blk_size cur + blk_size x), st.2)
  else (x, if blk_size cur =? 0 then st.2 else st.2 ++ [cur]).

Definition collapse (blocks : list Match) : list Match :=
  let st := foldl collapse_step (mkMatch 0 0 0, []) blocks in
  if blk_size st.1 =? 0 then st.2 else st.2 ++ [st.1].

(** [get_matching_blocks()] *)
Definition get_matching_blocks : list Match :=
  collapse (merge_sort match_le raw_blocks)
  ++ [mkMatch (length a) (length b) 0].

Definition matches : nat := sum_list_with blk_size get_matching_blocks.

(** [ratio()] *)
Definition ratio : Q := calculate_ratio matches (length a + length b).

(** [quick_ratio()]: [fullbcount] counts the elements of [b]. *)
Definition fullbcount : gmap ascii Z :=
  foldl (fun (m : gmap ascii Z) (elt : ascii) =>
           <[elt := (default 0 (m !! elt) + 1)%Z]> m) ∅ b.

Definition quick_step (st : gmap ascii Z * nat) (elt : ascii) : gmap ascii Z * nat :=
  let numb :=
    match st.1 !! elt with
    | Some n => n
    | None => default 0%Z (fullbcount !! elt)
    end in
  (<[elt := (numb - 1)%Z]> st.1, if (0 <? numb)%Z then st.2 + 1 else st.2).

Definition quick_matches : nat := (foldl quick_step (∅, 0) a).2.

Definition quick_ratio : Q := calculate_ratio quick_matches (length a + length b).

(** [real_quick_ratio()] *)
Definition real_quick_ratio : Q :=
  calculate_ratio (length a `min` length b) (length a + length b).

End SequenceMatcher.

(** Tuple order on [(score, x)] pairs, as [heapq.nlargest] uses it. *)
Definition scored_le (p q : Q * string) : Prop :=
  (p.1 < q.1)%Q ∨ ((p.1 == q.1)%Q ∧ String.leb p.2 q.2 = true).

#[global] Instance scored_le_dec : RelDecision scored_le.
Proof.
  intros p q. unfold scored_le.
  destruct (Qlt_le_dec p.1 q.1) as [Hlt|Hle]; [left; by left|].
  destruct (Qeq_dec p.1 q.1) as [Heq|Hne].
  - destruct (String.leb p.2 q.2) eqn:Hs.
    + left. by right.
    + right. intros [H|[_ H]]; [apply (Qlt_not_le _ _ H Hle) | discriminate].
  - right. intros [H|[H _]]; [apply (Qlt_not_le _ _ H Hle) | by apply Hne].
Defined.

(** [heapq.nlargest(n, result)]: the [n] greatest, greatest first. *)
Definition nlargest (n : nat) (result : list (Q * string)) : list (Q * string) :=
  take n (merge_sort (flip scored_le) result).

(** The three tests of the loop of [get_close_matches], in its order. *)
Definition close_enough (cutoff : Q) (word x : string) : bool :=
  Qle_bool cutoff (real_quick_ratio (chars x) (chars word))
  && Qle_bool cutoff (quick_ratio (chars x) (chars word))
  && Qle_bool cutoff (ratio (chars x) (chars word)).

(** [get_close_matches(word, possibilities, n, cutoff)].  Its two
    [ValueError] guards ([n > 0], [0.0 <= cutoff <= 1.0]) hold for the
    constants of the only call site and are left out. *)
Definition get_close_matches (word : string) (possibilities : list string)
    (n : nat) (cutoff : Q) : list string :=
  let result :=
    foldl (fun (result : list (Q * string)) (x : string) =>
             if close_enough cutoff word x
             then result ++ [(ratio (chars x) (chars word), x)]
             else result)
          [] possibilities in
  map snd (nlargest n result).

End Difflib.

(** ** Exceptions *)

Inductive exn : Type :=
| ZeroDivisionError
| KeyError (key : string)
| DanglingReference (r : nat).

Inductive result (A : Type) : Type :=
| Ok (x : A)
| Raise (e : exn).

Arguments Ok {A} x.
Arguments Raise {A} e.

(** [x / y] on numbers. *)
Definition truediv (x y : Q) : result Q :=
  if Qeq_bool y 0 then Raise ZeroDivisionError else Ok (x / y)%Q.

(** ** The role catalog *)

Record RoleProfile : Type := mkRole {
  skills : list string;
  tools : list string;
  certifications : list string
}.

(** The dictionary literal of the source, in its order. *)
Definition JOB_ROLE_DATA : list (string * RoleProfile) :=
  [ ("Data Scientist",
     mkRole ["Python"; "R"; "SQL"; "Machine Learning"; "Deep Learning"; "Statistics";
             "Data Visualization"]
            ["Pandas"; "NumPy"; "Scikit-learn"; "TensorFlow"; "Matplotlib"]
            ["IBM Data Science Professional Certificate";
             "Google Data Analytics Certificate"]);
    ("Web Developer",
     mkRole ["HTML"; "CSS"; "JavaScript"; "React"; "Node.js"; "REST APIs";
             "Responsive Design"]
            ["VS Code"; "Chrome DevTools"; "Git"; "Webpack"]
            ["Meta Front-End Developer"; "freeCodeCamp Responsive Web Design"]);
    ("AI Engineer",
     mkRole ["Python"; "TensorFlow"; "PyTorch"; "Computer Vision"; "NLP";
             "Model Deployment"]
            ["TensorFlow"; "PyTorch"; "OpenCV"; "Hugging Face Transformers"]
            ["TensorFlow Developer Certificate"; "AI For Everyone by Andrew Ng"]);
    ("ML Engineer",
     mkRole ["Python"; "Scikit-learn"; "Machine Learning"; "Deep Learning";
             "Data Engineering"]
            ["TensorFlow"; "PyTorch"; "Keras"; "Airflow"; "Docker"]
            ["AWS Machine Learning Specialty"; "TensorFlow Developer Certificate"]);
    ("Software Engineer",
     mkRole ["Java"; "Python"; "C++"; "Algorithms"; "Data Structures"]
            ["Git"; "VS Code"; "Jira"; "Docker"]
            ["Oracle Java Certification"; "AWS Certified Developer"]);
    ("DevOps Engineer",
     mkRole ["CI/CD"; "Automation"; "Cloud"; "Docker"; "Kubernetes"]
            ["Jenkins"; "Docker"; "Kubernetes"; "Terraform"; "Git"]
            ["AWS DevOps Engineer"; "Docker Certified Associate"]);
    ("Cloud Engineer",
     mkRole ["AWS"; "Azure"; "GCP"; "Networking"; "Cloud Architecture"]
            ["Terraform"; "Ansible"; "Kubernetes"; "Docker"]
            ["AWS Solutions Architect"; "Google Cloud Professional"]);
    ("Cybersecurity Analyst",
     mkRole ["Network Security"; "Penetration Testing"; "Incident Response";
             "Threat Analysis"]
            ["Wireshark"; "Nmap"; "Metasploit"; "Splunk"]
            ["CEH"; "CISSP"; "CompTIA Security+"]);
    ("Business Analyst",
     mkRole ["Requirement Analysis"; "SQL"; "Data Visualization"; "Documentation"]
            ["Excel"; "Power BI"; "Tableau"; "Jira"]
            ["CBAP"; "IIBA Certification"]);
    ("Product Manager",
     mkRole ["Roadmap Planning"; "Market Research"; "User Stories";
             "Stakeholder Management"]
            ["Jira"; "Trello"; "Aha!"; "Miro"]
            ["Certified Scrum Product Owner"; "PMP"]);
    ("QA Engineer",
     mkRole ["Test Automation"; "Manual Testing"; "Selenium"; "Performance Testing"]
            ["Selenium"; "Jira"; "Postman"; "TestRail"]
            ["ISTQB Foundation"; "Certified Software Tester"]) ].

(** ** The object store

    The three lists of a role are list objects; a role's inner dictionary
    holds references to them.  The [k]-th role of the literal owns the
    references [3k], [3k+1] and [3k+2]. *)

Record RoleRefs : Type := mkRefs {
  skills_ref : nat;
  tools_ref : nat;
  certifications_ref : nat
}.

Record Process : Type := mkProcess {
  store : gmap nat (list string);
  roles : gmap string RoleRefs
}.

Definition load_role (p : Process) (kr : nat * (string * RoleProfile)) : Process :=
  let k := kr.1 in
  let name := kr.2.1 in
  let r := kr.2.2 in
  mkProcess
    (<[3 * k + 2 := certifications r]>
       (<[3 * k + 1 := tools r]> (<[3 * k := skills r]> (store p))))
    (<[name := mkRefs (3 * k) (3 * k + 1) (3 * k + 2)]> (roles p)).

(** The process state once the module body has run. *)
Definition startup : Process :=
  foldl load_role (mkProcess ∅ ∅) (imap pair JOB_ROLE_DATA).

(** The role profile a process currently holds under [name]. *)
Definition profile_of (p : Process) (name : string) : option RoleProfile :=
  refs ← roles p !! name;
  s ← store p !! skills_ref refs;
  t ← store p !! tools_ref refs;
  c ← store p !! certifications_ref refs;
  Some (mkRole s t c).

(** Computations over the process state that may raise. *)
Definition M (A : Type) : Type := Process → result (A * Process).

#[global] Instance M_ret : MRet M := fun A x p => Ok (x, p).

#[global] Instance M_bind : MBind M := fun A B f m p =>
  match m p with
  | Ok (x, p') => f x p'
  | Raise e => Raise e
  end.

(** [JOB_ROLE_DATA[name]] *)
Definition get_role (name : string) : M RoleRefs := fun p =>
  match roles p !! name with
  | Some refs => Ok (refs, p)
  | None => Raise (KeyError name)
  end.

(** Reading the list object behind a reference. *)
Definition read (r : nat) : M (list string) := fun p =>
  match store p !! r with
  | Some l => Ok (l, p)
  | None => Raise (DanglingReference r)
  end.

(** [x += y] on a list object: [list.__iadd__] extends the object in
    place, so every name bound to it sees the longer list. *)
Definition iadd (r : nat) (y : list string) : M unit := fun p =>
  match store p !! r with
  | Some l => Ok (tt, mkProcess (<[r := l ++ y]> (store p)) (roles p))
  | None => Raise (DanglingReference r)
  end.

Definition lift {A : Type} (x : result A) : M A := fun p =>
  match x with
  | Ok v => Ok (v, p)
  | Raise e => Raise e
  end.

(** ** Helper functions of the source *)

(** [extract_text_from_pdf]: the page texts are concatenated and
    lower-cased; [pages] stands for [page.get_text()] of each page. *)
Definition extract_text_from_pdf (pages : list string) : string :=
  PyStr.lower (foldl String.append "" pages).

(** The test of one item in the loop of [extract_items_from_text]: the
    exact search, then the close-match fallback. *)
Definition exact_match (text item : string) : bool :=
  Re.search ("\b" +:+ Re.escape (PyStr.lower item) +:+ "\b") text.

Definition fuzzy_match (text item : string) : bool :=
  match Difflib.get_close_matches (PyStr.lower item) (PyStr.split text) 1 0.8%Q with
  | [] => false
  | _ => true
  end.

Definition extract_items_from_text (text : string) (item_list : list string) : list string :=
  foldl (fun (found_items : list string) (item : string) =>
           if exact_match text item then found_items ++ [item]
           else if fuzzy_match text item then found_items ++ [item]
           else found_items)
        [] item_list.

(** [calculate_match]: [len(set(extracted) & set(required))] over
    [len(required)], guarded by the truth value of [required]. *)
Definition calculate_match (extracted required : list string) : result Q :=
  let matched : gset string := list_to_set extracted ∩ list_to_set required in
  match required with
  | [] => Ok 0%Q
  | _ =>
      match truediv (inject_Z (Z.of_nat (size matched)))
                    (inject_Z (Z.of_nat (length required))) with
      | Ok q => Ok (q * 100)%Q
      | Raise e => Raise e
      end
  end.

Definition sentinel : string := "No suggestions, resume is strong!".

(** [top_3_suggestions] *)
Definition top_3_suggestions (missing_skills missing_tools missing_certs : list string)
    : list string :=
  let suggestions := (missing_skills ++ missing_tools) ++ missing_certs in
  match suggestions with
  | [] => [sentinel]
  | _ => take 3 suggestions
  end.

(** ** The analysis of [main] *)

(** [[x for x in required if x not in found]] *)
Definition missing_items (found required : list string) : list string :=
  filter (fun x => x ∉ found) required.

(** [0.4*skill_score + 0.2*tool_score + 0.1*cert_score + 0.3*semantic_score] *)
Definition overall (skill_score tool_score cert_score semantic_score : Q) : Q :=
  (0.4 * skill_score + 0.2 * tool_score + 0.1 * cert_score + 0.3 * semantic_score)%Q.

Inductive Verdict : Type := Excellent | Moderate | Weak.

(** The [if]/[elif]/[else] on [overall_score] that picks the message. *)
Definition verdict (overall_score : Q) : Verdict :=
  if Qle_bool 80 overall_score then Excellent
  else if Qle_bool 60 overall_score then Moderate
  else Weak.

(** What one analysis shows. *)
Record Analysis : Type := mkAnalysis {
  skill_score : Q;
  tool_score : Q;
  cert_score : Q;
  semantic_score : Q;
  overall_score : Q;
  missing_skills : list string;
  missing_tools : list string;
  missing_certs : list string;
  recommendations : list string;
  hiring : Verdict;
  radar_categories : list string;
  radar_values : list nat
}.

Section Main.
(** The embedding model behind [calculate_semantic_similarity] is an
    external collaborator. *)
Variable calculate_semantic_similarity : string → string → Q.

(** The body of [if uploaded_file and selected_role:], from the lookup
    of the role to the radar chart. *)
Definition analyse (resume_text selected_role : string) : M Analysis :=
  job_data ← get_role selected_role;
  (* extract items *)
  sk ← read (skills_ref job_data);
  let extracted_skills := extract_items_from_text resume_text sk in
  tl ← read (tools_ref job_data);
  let extracted_tools := extract_items_from_text resume_text tl in
  ce ← read (certifications_ref job_data);
  let extracted_certs := extract_items_from_text resume_text ce in
  (* match scores *)
  sk1 ← read (skills_ref job_data);
  skill ← lift (calculate_match extracted_skills sk1);
  tl1 ← read (tools_ref job_data);
  tool ← lift (calculate_match extracted_tools tl1);
  ce1 ← read (certifications_ref job_data);
  cert ← lift (calculate_match extracted_certs ce1);
  sk2 ← read (skills_ref job_data);
  tl2 ← read (tools_ref job_data);
  ce2 ← read (certifications_ref job_data);
  let semantic :=
    calculate_semantic_similarity resume_text
      (PyStr.join_space ((sk2 ++ tl2) ++ ce2)) in
  let total := overall skill tool cert semantic in
  (* suggestions *)
  sk3 ← read (skills_ref job_data);
  let m_skills := missing_items extracted_skills sk3 in
  tl3 ← read (tools_ref job_data);
  let m_tools := missing_items extracted_tools tl3 in
  ce3 ← read (certifications_ref job_data);
  let m_certs := missing_items extracted_certs ce3 in
  let top := top_3_suggestions m_skills m_tools m_certs in
  (* radar chart: [categories] is bound to the list object of the
     catalog, [values] to a new list *)
  let categories := skills_ref job_data in
  cs ← read categories;
  let values := map (fun skill => if bool_decide (skill ∈ extracted_skills) then 1 else 0) cs in
  let values := values ++ take 1 values in
  cs1 ← read categories;
  _ ← iadd categories (take 1 cs1);
  labels ← read categories;
  mret (mkAnalysis skill tool cert semantic total m_skills m_tools m_certs top
          (verdict total) labels values).

(** [main]: nothing is analysed without an uploaded file or with an
    empty role name. *)
Definition main (uploaded_file : option (list string)) (selected_role : string)
    : M (option Analysis) :=
  match uploaded_file with
  | Some pages =>
      if bool_decide (selected_role = "") then mret None
      else
        r ← analyse (extract_text_from_pdf pages) selected_role;
        mret (Some r)
  | None => mret None
  end.

End Main.

(** ** Notions taken from the wording of the specification

    These are the yardsticks the code is compared with; none of them is
    used by the definitions above. *)

Module Spec.
Import PyStr.

(** [|found ∩ required|]: the number of distinct strings that occur in
    both lists. *)
Definition common_count (found required : list string) : nat :=
  length (remove_dups (filter (fun x => x ∈ found) required)).

(** A whole-word occurrence of [w] at the current position: [w] is a
    prefix of [rest], no word character stands before it and none
    after it. *)
Fixpoint is_prefix (w rest : list ascii) : option (list ascii) :=
  match w, rest with
  | [], _ => Some rest
  | c :: w', x :: rest' => if bool_decide (x = c) then is_prefix w' rest' else None
  | _ :: _, [] => None
  end.

Definition whole_word_here (w : list ascii) (prev : option ascii) (rest : list ascii) : bool :=
  negb (Re.word_opt prev)
  && match is_prefix w rest with
     | Some after => negb (Re.word_opt (head after))
     | None => false
     end.

Fixpoint whole_word_from (w : list ascii) (prev : option ascii) (rest : list ascii) : bool :=
  whole_word_here w prev rest
  || match rest with
     | [] => false
     | x :: rest' => whole_word_from w (Some x) rest'
     end.

(** [w] appears in [text] as a whole word, not inside a longer one. *)
Definition whole_word (w text : string) : bool :=
  whole_word_from (chars w) None (chars text).

(** The similarity ratio of the closest token, if there is a token. *)
Definition closest_ratio (word : string) (tokens : list string) : option Q :=
  foldl (fun (best : option Q) (t : string) =>
           let r := Difflib.ratio (chars t) (chars word) in
           match best with
           | Some q => if Qle_bool r q then Some q else Some r
           | None => Some r
           end)
        None tokens.

Definition fuzzy_present (text candidate : string) : bool :=
  match closest_ratio (lower candidate) (split text) with
  | Some r => Qle_bool 0.8 r
  | None => false
  end.

Definition present (text candidate : string) : bool :=
  whole_word (lower candidate) (lower text) || fuzzy_present text candidate.

(** [findPresentItems]: the candidates that are present, in their order. *)
Definition findPresentItems (text : string) (candidates : list string) : list string :=
  filter (fun c => present text c = true) candidates.

(** [l] is [l1] and [l2] merged, each in its own order. *)
Inductive Interleave {A : Type} : list A → list A → list A → Prop :=
| interleave_nil : Interleave [] [] []
| interleave_left x l1 l2 l : Interleave l1 l2 l → Interleave (x :: l1) l2 (x :: l)
| interleave_right x l1 l2 l : Interleave l1 l2 l → Interleave l1 (x :: l2) (x :: l).

(** A candidate that begins and ends with a word character. *)
Definition word_edged (w : string) : bool :=
  Re.word_opt (head (chars w)) && Re.word_opt (last (chars w)).

End Spec.

(** ** Invariants and auxiliary notions of the proofs *)

Module Inv.
Import Difflib.

(** [l[lo:hi]] *)
Definition slice (l : list ascii) (lo hi : nat) : list ascii :=
  take (hi - lo) (drop lo l).

Definition weight (R : region) : nat := 2 * (R.1.1.2 - R.1.1.1) + 1.

Section Sequences.
Variables a b : list ascii.

(** A block inside a region whose two sides are equal. *)
Definition valid_block (alo ahi blo bhi : nat) (m : Match) : Prop :=
  alo ≤ blk_a m ∧ blk_a m + blk_size m ≤ ahi
  ∧ blo ≤ blk_b m ∧ blk_b m + blk_size m ≤ bhi
  ∧ ∀ t, t < blk_size m → a !! (blk_a m + t) = b !! (blk_b m + t).

(** A run of [k] equal elements ending with [a[r]] and [b[j]] inside the
    region. *)
Definition ends_at (alo blo bhi : nat) (r j k : nat) : Prop :=
  1 ≤ k ∧ alo ≤ r ∧ k ≤ r + 1 - alo ∧ blo ≤ j ∧ k ≤ j + 1 - blo ∧ j < bhi
  ∧ ∀ t, t < k → a !! (r - t) = b !! (j - t).

(** What [j2len] holds when row [i] starts: runs ending in row [i - 1]. *)
Definition prev_ok (alo blo bhi : nat) (i : nat) (j2len : gmap nat nat) : Prop :=
  ∀ j k, j2len !! j = Some k → ∃ r, i = S r ∧ ends_at alo blo bhi r j k.

Definition wf_region (R : region) : Prop :=
  R.1.1.1 ≤ R.1.1.2 ∧ R.1.1.2 ≤ length a ∧ R.1.2 ≤ R.2 ∧ R.2 ≤ length b.

(** The number of elements a region can still contribute: the size of
    the multiset intersection of its two sides. *)
Definition cap (R : region) : nat :=
  size (list_to_set_disj (slice a R.1.1.1 R.1.1.2)
        ∩ list_to_set_disj (slice b R.1.2 R.2) : gmultiset ascii).

(** The loop of [quick_ratio] after the elements [P] of [a]: [avail]
    holds what is left of [b], [matches] counts the intersection. *)
Definition quick_inv (P : gmultiset ascii) (st : gmap ascii Z * nat) : Prop :=
  (∀ c, match st.1 !! c with
        | Some n =>
            n = (Z.of_nat (multiplicity c (list_to_set_disj b))
                 - Z.of_nat (multiplicity c P))%Z
        | None => multiplicity c P = 0
        end)
  ∧ st.2 = size (P ∩ list_to_set_disj b).

End Sequences.

(** The character before the position reached after reading [w]. *)
Definition last_or (prev : option ascii) (w : list ascii) : option ascii :=
  match last w with
  | Some c => Some c
  | None => prev
  end.

(** The best ratio so far reaches the cutoff. *)
Definition reaches (cutoff : Q) (best : option Q) : bool :=
  match best with
  | Some r => Qle_bool cutoff r
  | None => false
  end.

End Inv.

(** ** Further parts of [main]: the page and the radar chart

    The texts put on the page are only shown, never matched; the ones of
    the source that hold characters beyond U+00FF are kept here as their
    UTF-8 bytes. *)

(** The calls on [st] that write to the page. *)
Inductive st_call : Type :=
| st_subheader (body : string)
| st_write (body : string)
| st_success (body : string)
| st_warning (body : string)
| st_error (body : string).

(** [", ".join(l)] *)
Fixpoint join_comma (l : list string) : string :=
  match l with
  | [] => ""
  | [s] => s
  | s :: l' => s +:+ ", " +:+ join_comma l'
  end.

(** [str(n)] for a natural number. *)
Definition decimal (n : nat) : string := NilZero.string_of_uint (Nat.to_uint n).

(** The block under "Suggestions for Improvement": one line per category
    with missing items, or the all-covered message. *)
Definition show_suggestions (missing_skills missing_tools missing_certs : list string)
    : list st_call :=
  st_subheader "📌 Suggestions for Improvement"
  :: match missing_skills, missing_tools, missing_certs with
     | [], [], [] => [st_success "✅ Your resume covers all key requirements!"]
     | _, _, _ =>
         (match missing_skills with
          | [] => []
          | _ => [st_write ("**Missing Skills:** " +:+ join_comma missing_skills)]
          end)
         ++ (match missing_tools with
             | [] => []
             | _ => [st_write ("**Missing Tools:** " +:+ join_comma missing_tools)]
             end)
         ++ (match missing_certs with
             | [] => []
             | _ => [st_write ("**Missing Certifications:** " +:+ join_comma missing_certs)]
             end)
     end.

(** The block under "Top 3 Recommendations":
    [for idx, suggestion in enumerate(top_3_suggestions(...), 1)]. *)
Definition show_recommendations (missing_skills missing_tools missing_certs : list string)
    : list st_call :=
  st_subheader "💡 Top 3 Recommendations"
  :: imap (fun (i : nat) (suggestion : string) =>
             st_write (decimal (i + 1) +:+ ". " +:+ suggestion))
          (top_3_suggestions missing_skills missing_tools missing_certs).

(** The block under "Resume Verdict / Hiring Suggestion". *)
Definition show_verdict (overall_score : Q) : list st_call :=
  [ st_subheader "📝 Resume Verdict / Hiring Suggestion";
    match verdict overall_score with
    | Excellent => st_success "✅ Excellent! Your resume is likely to be accepted for this role."
    | Moderate => st_warning "⚠️ Moderate match. Improvements recommended."
    | Weak => st_error "❌ Weak match. Resume unlikely to be accepted."
    end ].

(** [np.linspace(0, 2*np.pi, len(categories), endpoint=False)], each angle
    as its fraction of the full turn. *)
Definition radar_angles (categories : list string) : list Q :=
  map (fun i : nat => Z.of_nat i # Pos.of_nat (length categories))
      (seq 0 (length categories)).

(** Every list a role refers to is in the store. *)
Definition wf_process (p : Process) : Prop :=
  ∀ name refs,
    roles p !! name = Some refs →
    is_Some (store p !! skills_ref refs)
    ∧ is_Some (store p !! tools_ref refs)
    ∧ is_Some (store p !! certifications_ref refs).

(** The verdicts from worst to best. *)
Definition rank (v : Verdict) : nat :=
  match v with
  | Weak => 0
  | Moderate => 1
  | Excellent => 2
  end.

(** * Properties *)

(** ** The scorer *)

Section Scorer.
Implicit Types found extracted required : list string.

Lemma matched_size_common found required :
  size (list_to_set found ∩ list_to_set required : gset string)
  = Spec.common_count found required.
Proof.
  unfold Spec.common_count.
  rewrite <- (size_list_to_set (C := gset string)) by apply NoDup_remove_dups.
  f_equal. apply set_eq. intros x.
  rewrite elem_of_intersection, !elem_of_list_to_set, elem_of_remove_dups,
    list_elem_of_filter.
  tauto.
Qed.

Lemma size_list_to_set_le (l : list string) :
  size (list_to_set l : gset string) ≤ length l.
Proof.
  induction l as [|x l IH].
  - change (size (∅ : gset string) ≤ 0). by rewrite size_empty.
  - change (size ({[x]} ∪ list_to_set l : gset string) ≤ S (length l)).
    rewrite size_union_alt.
    rewrite size_singleton.
    assert (size (list_to_set l ∖ {[x]} : gset string) ≤ size (list_to_set l : gset string))
      by (apply subseteq_size; intros y [Hy _]%elem_of_difference; exact Hy).
    lia.
Qed.

Lemma matched_size_le found required :
  size (list_to_set found ∩ list_to_set required : gset string) ≤ length required.
Proof.
  etrans; [apply subseteq_size|apply size_list_to_set_le].
  intros y [_ Hy]%elem_of_intersection. exact Hy.
Qed.

Lemma size_list_to_set_NoDup (l : list string) :
  size (list_to_set l : gset string) = length l ↔ NoDup l.
Proof.
  split; [|apply size_list_to_set].
  induction l as [|x l IH]; simpl; intros Hsz; [constructor|].
  destruct (decide (x ∈ l)) as [Hin|Hnin].
  - assert (({[x]} ∪ list_to_set l : gset string) = list_to_set l) as Heq
      by (apply set_eq; intros y;
          rewrite elem_of_union, elem_of_singleton, elem_of_list_to_set;
          split; [intros [->|?]; done|by right]).
    rewrite Heq in Hsz. pose proof (size_list_to_set_le l). lia.
  - constructor; [done|]. apply IH.
    rewrite size_union in Hsz
      by (intros y ->%elem_of_singleton Hy%elem_of_list_to_set; done).
    rewrite size_singleton in Hsz. lia.
Qed.

Lemma truediv_nat (m n : nat) :
  n ≠ 0 →
  truediv (inject_Z (Z.of_nat m)) (inject_Z (Z.of_nat n))
  = Ok (inject_Z (Z.of_nat m) / inject_Z (Z.of_nat n))%Q.
Proof.
  intros Hn. unfold truediv.
  destruct (Qeq_bool (inject_Z (Z.of_nat n)) 0) eqn:E; [|done].
  apply Qeq_bool_eq in E. unfold Qeq in E. simpl in E. lia.
Qed.

(** The value [calculate_match] returns, with the exception ruled out. *)
Lemma calculate_match_value extracted required :
  calculate_match extracted required
  = Ok (match required with
        | [] => 0
        | _ => inject_Z (Z.of_nat (size (list_to_set extracted ∩ list_to_set required
                                           : gset string)))
               / inject_Z (Z.of_nat (length required)) * 100
        end)%Q.
Proof.
  unfold calculate_match. destruct required as [|r required]; [done|].
  by rewrite truediv_nat.
Qed.

Lemma fraction_bounds (m n : nat) :
  m ≤ n → n ≠ 0 →
  (0 <= inject_Z (Z.of_nat m) / inject_Z (Z.of_nat n) * 100 <= 100)%Q.
Proof.
  intros Hmn Hn.
  assert (0 < inject_Z (Z.of_nat n))%Q as Hpos
    by (unfold Qlt; simpl; lia).
  assert (0 <= inject_Z (Z.of_nat m) / inject_Z (Z.of_nat n))%Q as H0.
  { apply Qle_shift_div_l; [done|]. unfold Qle; simpl; lia. }
  assert (inject_Z (Z.of_nat m) / inject_Z (Z.of_nat n) <= 1)%Q as H1.
  { apply Qle_shift_div_r; [done|]. unfold Qle; simpl; lia. }
  split; lra.
Qed.

Lemma fraction_full (m n : nat) :
  n ≠ 0 →
  (inject_Z (Z.of_nat m) / inject_Z (Z.of_nat n) * 100 == 100)%Q ↔ m = n.
Proof.
  intros Hn.
  assert (~ inject_Z (Z.of_nat n) == 0)%Q as Hnz
    by (unfold Qeq; simpl; lia).
  split.
  - intros H.
    assert (inject_Z (Z.of_nat m) / inject_Z (Z.of_nat n) == 1)%Q as Hx by lra.
    assert (inject_Z (Z.of_nat m)
            == inject_Z (Z.of_nat m) / inject_Z (Z.of_nat n) * inject_Z (Z.of_nat n))%Q
      as Heq by (field; done).
    rewrite Hx in Heq. unfold Qeq in Heq. simpl in Heq. lia.
  - intros ->. field. done.
Qed.

End Scorer.

(** C4. For every found list and every required list, the category score
    is [|found ∩ required| / |required| * 100] when [required] is
    non-empty and [0] when it is empty; the call returns a value, so no
    division by zero is raised on an empty required list. *)
Theorem calculate_match_formula (found required : list string) :
  ∃ q : Q,
    calculate_match found required = Ok q
    ∧ (q == if decide (required = []) then 0
            else inject_Z (Z.of_nat (Spec.common_count found required))
                 / inject_Z (Z.of_nat (length required)) * 100)%Q.
Proof.
  eexists. split; [apply calculate_match_value|].
  destruct required as [|r required]; [reflexivity|].
  rewrite matched_size_common.
  destruct (decide (r :: required = [])); [done|reflexivity].
Qed.

Lemma calculate_match_in_range (extracted required : list string) :
  ∃ q : Q, calculate_match extracted required = Ok q ∧ (0 <= q <= 100)%Q.
Proof.
  eexists. split; [apply calculate_match_value|].
  destruct required as [|r required]; [split; lra|].
  apply fraction_bounds; [apply matched_size_le|done].
Qed.

(** C10. With no precondition on the two lists (duplicates and foreign
    items allowed in [extracted]), [calculate_match] returns a value in
    [0,100]: the cardinality of the set intersection never exceeds the
    length of [required], and the empty-[required] branch returns [0]
    instead of dividing. *)
Theorem calculate_match_total_bounded (extracted required : list string) :
  size (list_to_set extracted ∩ list_to_set required : gset string) ≤ length required
  ∧ calculate_match extracted [] = Ok 0%Q
  ∧ ∃ q : Q, calculate_match extracted required = Ok q ∧ (0 <= q <= 100)%Q.
Proof.
  split; [apply matched_size_le|]. split; [done|].
  apply calculate_match_in_range.
Qed.

(** C5, as the code has it.  For every non-empty required list the
    category score lies in [0,100] for every found list, and the score of
    [required] against itself is exactly 100 precisely when [required]
    has no duplicate entry. *)
Theorem calculate_match_range_and_full (found required : list string) :
  required ≠ [] →
  (∃ q : Q, calculate_match found required = Ok q ∧ (0 <= q <= 100)%Q)
  ∧ (∃ q : Q, calculate_match required required = Ok q
              ∧ ((q == 100)%Q ↔ NoDup required)).
Proof.
  intros Hne. split.
  - apply calculate_match_in_range.
  - eexists. split; [apply calculate_match_value|].
    destruct required as [|r required]; [done|].
    rewrite fraction_full by done.
    rewrite <- size_list_to_set_NoDup.
    replace (list_to_set (r :: required) ∩ list_to_set (r :: required) : gset string)
      with (list_to_set (r :: required) : gset string); [done|].
    apply set_eq. intros x. rewrite elem_of_intersection. tauto.
Qed.

Lemma calculate_match_range_and_full_witness :
  ["Git"; "Jira"] ≠ []
  ∧ (∃ q : Q, calculate_match ["Git"] ["Git"; "Jira"] = Ok q ∧ (0 <= q <= 100)%Q)
  ∧ (∃ q : Q, calculate_match ["Git"; "Jira"] ["Git"; "Jira"] = Ok q
              ∧ ((q == 100)%Q ↔ NoDup ["Git"; "Jira"])).
Proof.
  split; [done|].
  apply (calculate_match_range_and_full ["Git"] ["Git"; "Jira"]). done.
Defined.

(** C5 as stated fails when the required list repeats an entry: the set
    intersection counts the entry once, the length counts it twice. *)
Lemma calculate_match_duplicate_not_full :
  ∃ q : Q,
    calculate_match ["Docker"; "Docker"] ["Docker"; "Docker"] = Ok q
    ∧ (q == 50)%Q ∧ ¬ (q == 100)%Q.
Proof.
  eexists. split; [apply calculate_match_value|].
  split; vm_compute; [done|discriminate].
Qed.

(** ** The overall score and the verdict *)

(** C6. The overall score is [0.4*skill + 0.2*tool + 0.1*cert +
    0.3*semantic], and it lies in [0,100] whenever the four percentages
    do. *)
Theorem overall_weighted_sum (skillPct toolPct certPct semanticPct : Q) :
  (overall skillPct toolPct certPct semanticPct
   == (2 # 5) * skillPct + (1 # 5) * toolPct + (1 # 10) * certPct + (3 # 10) * semanticPct)%Q
  ∧ ((0 <= skillPct <= 100)%Q → (0 <= toolPct <= 100)%Q →
     (0 <= certPct <= 100)%Q → (0 <= semanticPct <= 100)%Q →
     (0 <= overall skillPct toolPct certPct semanticPct <= 100)%Q).
Proof.
  unfold overall. split; [ring|]. intros Hs Ht Hc Hm. split; lra.
Qed.

Lemma overall_weighted_sum_witness :
  (overall (200 # 7) 0 0 50
   == (2 # 5) * (200 # 7) + (1 # 5) * 0 + (1 # 10) * 0 + (3 # 10) * 50)%Q
  ∧ (0 <= overall (200 # 7) 0 0 50 <= 100)%Q.
Proof.
  destruct (overall_weighted_sum (200 # 7) 0 0 50) as [Heq Hrange].
  split; [exact Heq|].
  apply Hrange; split; unfold Qle; simpl; lia.
Defined.

Lemma Qle_bool_false (x y : Q) : Qle_bool x y = false ↔ (y < x)%Q.
Proof.
  split.
  - intros H. apply Qnot_le_lt. intros Hle.
    apply Qle_bool_iff in Hle. congruence.
  - intros H. destruct (Qle_bool x y) eqn:E; [|done].
    apply Qle_bool_iff in E. exfalso. apply (Qlt_not_le _ _ H E).
Qed.

(** C7. The verdict is Excellent exactly from 80 up, Moderate exactly on
    [60,80) and Weak exactly below 60; the lower bound of each band is
    inclusive. *)
Theorem verdict_bands (x : Q) :
  (verdict x = Excellent ↔ (80 <= x)%Q)
  ∧ (verdict x = Moderate ↔ (60 <= x)%Q ∧ (x < 80)%Q)
  ∧ (verdict x = Weak ↔ (x < 60)%Q)
  ∧ verdict 80.00 = Excellent
  ∧ verdict 79.99 = Moderate
  ∧ verdict 60.00 = Moderate
  ∧ verdict 59.99 = Weak.
Proof.
  unfold verdict at 1 2 3.
  destruct (Qle_bool 80 x) eqn:E80; destruct (Qle_bool 60 x) eqn:E60;
    try apply Qle_bool_iff in E80; try apply Qle_bool_iff in E60;
    try apply Qle_bool_false in E80; try apply Qle_bool_false in E60;
    repeat split; try done; try lra; intros; try lra; try (destruct_and?; lra).
Qed.

(** ** The recommender *)

Lemma missing_items_interleave (found required : list string) :
  Spec.Interleave (filter (fun x => x ∈ found) required)
                  (missing_items found required) required.
Proof.
  unfold missing_items.
  induction required as [|x required IH]; [constructor|].
  rewrite !filter_cons.
  destruct (decide (x ∈ found)) as [Hin|Hnin].
  - rewrite decide_False by (intros H; by apply H). by constructor.
  - rewrite decide_True by done. by constructor.
Qed.

(** C8. When every found item is a required item, the missing items are
    a subsequence of [required], they share no element with [found], the
    two together hold exactly the elements of [required], and [required]
    is the order-preserving merge of its found entries and its missing
    entries. *)
Theorem missing_items_partition (found required : list string) :
  found ⊆ required →
  missing_items found required `sublist_of` required
  ∧ (∀ x, x ∈ missing_items found required → x ∉ found)
  ∧ (∀ x, x ∈ required ↔ x ∈ found ∨ x ∈ missing_items found required)
  ∧ Spec.Interleave (filter (fun x => x ∈ found) required)
                    (missing_items found required) required.
Proof.
  intros Hsub. split; [apply sublist_filter|]. split; [|split].
  - intros x Hx. apply list_elem_of_filter in Hx. tauto.
  - intros x. unfold missing_items. rewrite list_elem_of_filter. split.
    + intros Hx. destruct (decide (x ∈ found)); [by left|by right].
    + intros [Hx|[_ Hx]]; [by apply Hsub|done].
  - apply missing_items_interleave.
Qed.

Lemma missing_items_partition_witness :
  missing_items ["HTML"; "CSS"] ["HTML"; "React"; "CSS"; "Node.js"]
    `sublist_of` ["HTML"; "React"; "CSS"; "Node.js"]
  ∧ (∀ x, x ∈ missing_items ["HTML"; "CSS"] ["HTML"; "React"; "CSS"; "Node.js"]
          → x ∉ ["HTML"; "CSS"])
  ∧ (∀ x, x ∈ ["HTML"; "React"; "CSS"; "Node.js"]
          ↔ x ∈ ["HTML"; "CSS"]
            ∨ x ∈ missing_items ["HTML"; "CSS"] ["HTML"; "React"; "CSS"; "Node.js"])
  ∧ Spec.Interleave
      (filter (fun x => x ∈ ["HTML"; "CSS"]) ["HTML"; "React"; "CSS"; "Node.js"])
      (missing_items ["HTML"; "CSS"] ["HTML"; "React"; "CSS"; "Node.js"])
      ["HTML"; "React"; "CSS"; "Node.js"].
Proof.
  apply (missing_items_partition ["HTML"; "CSS"] ["HTML"; "React"; "CSS"; "Node.js"]).
  intros x Hx.
  apply list_elem_of_In in Hx. apply list_elem_of_In.
  simpl in *. intuition.
Defined.

(** C9, as the code has it.  At most three suggestions are returned; a
    non-empty concatenation of the three lists is returned truncated to
    three entries; three empty lists give the one-element sentinel list;
    and when the sentinel string is not itself among the missing items,
    the sentinel list is returned only for three empty lists. *)
Theorem top_3_suggestions_spec (missingSkills missingTools missingCerts : list string) :
  length (top_3_suggestions missingSkills missingTools missingCerts) ≤ 3
  ∧ (missingSkills ++ missingTools ++ missingCerts ≠ [] →
     top_3_suggestions missingSkills missingTools missingCerts
     = take 3 (missingSkills ++ missingTools ++ missingCerts))
  ∧ (missingSkills = [] ∧ missingTools = [] ∧ missingCerts = [] →
     top_3_suggestions missingSkills missingTools missingCerts = [sentinel])
  ∧ (sentinel ∉ missingSkills ++ missingTools ++ missingCerts →
     top_3_suggestions missingSkills missingTools missingCerts = [sentinel] →
     missingSkills = [] ∧ missingTools = [] ∧ missingCerts = []).
Proof.
  unfold top_3_suggestions. rewrite <- (assoc_L (++)).
  destruct (missingSkills ++ missingTools ++ missingCerts) as [|x l] eqn:E.
  - split; [simpl; lia|]. split; [done|]. split; [done|].
    intros _ _. apply app_eq_nil in E as [-> E]. by apply app_eq_nil in E as [-> ->].
  - split; [rewrite length_take; lia|]. split; [done|]. split.
    + intros (-> & -> & ->). discriminate.
    + intros Hnot Heq. exfalso. apply Hnot.
      assert (x = sentinel) as -> by (destruct l as [|? [|? [|? ?]]]; simpl in Heq; congruence).
      apply list_elem_of_here.
Qed.

Lemma top_3_suggestions_spec_witness :
  length (top_3_suggestions ["React"; "Node.js"] ["Git"] ["PMP"]) ≤ 3
  ∧ top_3_suggestions ["React"; "Node.js"] ["Git"] ["PMP"]
    = take 3 (["React"; "Node.js"] ++ ["Git"] ++ ["PMP"])
  ∧ top_3_suggestions [] [] [] = [sentinel].
Proof.
  destruct (top_3_suggestions_spec ["React"; "Node.js"] ["Git"] ["PMP"]) as (Hlen & Htake & _).
  destruct (top_3_suggestions_spec [] [] []) as (_ & _ & Hall & _).
  split; [exact Hlen|]. split; [apply Htake; discriminate|apply Hall; done].
Defined.

(** C9 as stated fails in the "only if" direction: a missing item that is
    the sentinel string gives the sentinel list although a list is
    non-empty. *)
Lemma top_3_suggestions_sentinel_not_iff :
  ¬ (top_3_suggestions [sentinel] [] [] = [sentinel]
     ↔ [sentinel] = [] ∧ ([] : list string) = [] ∧ ([] : list string) = []).
Proof.
  intros [Himp _]. destruct (Himp eq_refl) as [H _]. discriminate.
Qed.

(** ** The analysis and the catalog *)

Section Analysis.
Variable calculate_semantic_similarity : string → string → Q.

(** Every run that finds its role returns normally, shows what the
    helper functions compute on the three lists of the role, and appends
    the first skill to the skills list object of that role; nothing else
    in the store changes. *)
Lemma analyse_effect (text name : string) (p : Process) (refs : RoleRefs)
    (s t c : list string) :
  roles p !! name = Some refs →
  store p !! skills_ref refs = Some s →
  store p !! tools_ref refs = Some t →
  store p !! certifications_ref refs = Some c →
  ∃ r : Analysis,
    analyse calculate_semantic_similarity text name p
    = Ok (r, mkProcess (<[skills_ref refs := s ++ take 1 s]> (store p)) (roles p))
    ∧ calculate_match (extract_items_from_text text s) s = Ok (skill_score r)
    ∧ calculate_match (extract_items_from_text text t) t = Ok (tool_score r)
    ∧ calculate_match (extract_items_from_text text c) c = Ok (cert_score r)
    ∧ overall_score r
      = overall (skill_score r) (tool_score r) (cert_score r) (semantic_score r)
    ∧ missing_skills r = missing_items (extract_items_from_text text s) s
    ∧ missing_tools r = missing_items (extract_items_from_text text t) t
    ∧ missing_certs r = missing_items (extract_items_from_text text c) c
    ∧ recommendations r
      = top_3_suggestions (missing_skills r) (missing_tools r) (missing_certs r)
    ∧ hiring r = verdict (overall_score r)
    ∧ radar_categories r = s ++ take 1 s.
Proof.
  intros Hr Hs Ht Hc.
  unfold analyse, mbind, M_bind, get_role, read, lift, iadd, mret, M_ret.
  rewrite Hr. cbn beta iota zeta.
  repeat (first [ rewrite Hs | rewrite Ht | rewrite Hc
                | rewrite calculate_match_value | rewrite lookup_insert_eq ];
          cbn beta iota; cbn [store roles]).
  eexists. split; [reflexivity|].
  cbn [skill_score tool_score cert_score semantic_score overall_score missing_skills
       missing_tools missing_certs recommendations hiring radar_categories].
  rewrite ?calculate_match_value. repeat split; reflexivity.
Qed.

End Analysis.

Ltac run_role sem pages name :=
  let r := fresh "r" in
  let Hrun := fresh "Hrun" in
  edestruct (analyse_effect sem (extract_text_from_pdf pages) name startup)
    as (r & Hrun & _); [vm_compute; reflexivity ..|];
  eexists r, _; cbn [fst snd];
  split; [unfold main, mbind, M_bind; rewrite bool_decide_eq_false_2 by done;
          rewrite Hrun; reflexivity|];
  split; [vm_compute; reflexivity|];
  split; [vm_compute; reflexivity|];
  vm_compute; discriminate.

(** C1, evaluated on the code.  One complete analysis of any role of the
    catalog returns normally and leaves that role's skills list one entry
    longer than before (its first skill is appended when the radar chart
    is prepared); the tools and certifications lists are unchanged.  The
    claim that the role profile is identical before and after therefore
    fails for every role and every resume. *)
Theorem analysis_extends_catalog_skills
    (calculate_semantic_similarity : string → string → Q) (pages : list string) :
  Forall (fun np : string * RoleProfile =>
            ∃ (r : Analysis) (p' : Process),
              main calculate_semantic_similarity (Some pages) np.1 startup = Ok (Some r, p')
              ∧ profile_of startup np.1 = Some np.2
              ∧ profile_of p' np.1
                = Some (mkRole (skills np.2 ++ take 1 (skills np.2))
                               (tools np.2) (certifications np.2))
              ∧ profile_of p' np.1 ≠ profile_of startup np.1)
         JOB_ROLE_DATA.
Proof.
  unfold JOB_ROLE_DATA.
  repeat (apply Forall_cons; split;
          [match goal with
           | |- context [main _ _ (?name, _).1 _] =>
               run_role calculate_semantic_similarity pages name
           end|]).
  apply Forall_nil. done.
Qed.

(** What the longer list does to a later run in the same process: a
    resume that names every skill of the role scores 100 in a first
    analysis and 87.5 in a second one, whose required list holds "HTML"
    twice. *)
Lemma repeated_analysis_scores_lower
    (calculate_semantic_similarity : string → string → Q) :
  let text := "html css javascript react node.js rest apis responsive design" in
  ∃ (r1 r2 : Analysis) (p1 p2 : Process),
    analyse calculate_semantic_similarity text "Web Developer" startup = Ok (r1, p1)
    ∧ analyse calculate_semantic_similarity text "Web Developer" p1 = Ok (r2, p2)
    ∧ (skill_score r1 == 100)%Q
    ∧ (skill_score r2 == 87.5)%Q.
Proof.
  intros text.
  edestruct (analyse_effect calculate_semantic_similarity text "Web Developer" startup)
    as (r1 & Hrun1 & Hscore1 & _); [vm_compute; reflexivity ..|].
  match type of Hrun1 with _ = Ok (_, ?p) => set (p1 := p) in * end.
  edestruct (analyse_effect calculate_semantic_similarity text "Web Developer" p1)
    as (r2 & Hrun2 & Hscore2 & _); [vm_compute; reflexivity ..|].
  exists r1, r2, p1. eexists. split; [exact Hrun1|]. split; [exact Hrun2|].
  rewrite calculate_match_value in Hscore1, Hscore2.
  injection Hscore1 as <-. injection Hscore2 as <-.
  split; vm_compute; reflexivity.
Qed.

(** ** [difflib]: the ratio and its two upper bounds *)

Module DifflibFacts.
Import PyStr Difflib.

Section Multisets.
Implicit Types P B X : gmultiset ascii.

Lemma size_inter_add P B (e : ascii) :
  size ((P ⊎ {[+ e +]}) ∩ B)
  = size (P ∩ B) + (if decide (multiplicity e P < multiplicity e B) then 1 else 0).
Proof.
  destruct (decide (multiplicity e P < multiplicity e B)) as [Hlt|Hge].
  - replace ((P ⊎ {[+ e +]}) ∩ B) with ((P ∩ B) ⊎ {[+ e +]}).
    { by rewrite gmultiset_size_disj_union, gmultiset_size_singleton. }
    apply gmultiset_eq. intros x.
    rewrite multiplicity_disj_union, !multiplicity_intersection,
      multiplicity_disj_union, multiplicity_singleton.
    destruct (decide (x = e)) as [->|]; simpl; lia.
  - rewrite Nat.add_0_r. f_equal.
    apply gmultiset_eq. intros x.
    rewrite !multiplicity_intersection, multiplicity_disj_union,
      multiplicity_singleton.
    destruct (decide (x = e)) as [->|]; simpl; lia.
Qed.

(** Matching up equal middles: the capacity of two concatenations is
    at least the sum of the capacities of the parts. *)
Lemma size_inter_split (x1 x3 y1 y3 mid : list ascii) :
  size (list_to_set_disj x1 ∩ list_to_set_disj y1 : gmultiset ascii)
  + length mid
  + size (list_to_set_disj x3 ∩ list_to_set_disj y3 : gmultiset ascii)
  ≤ size (list_to_set_disj (x1 ++ mid ++ x3) ∩ list_to_set_disj (y1 ++ mid ++ y3)
          : gmultiset ascii).
Proof.
  rewrite !list_to_set_disj_app.
  set (X1 := list_to_set_disj x1 : gmultiset ascii).
  set (X3 := list_to_set_disj x3 : gmultiset ascii).
  set (Y1 := list_to_set_disj y1 : gmultiset ascii).
  set (Y3 := list_to_set_disj y3 : gmultiset ascii).
  set (M := list_to_set_disj mid : gmultiset ascii).
  assert (length mid = size M) as ->.
  { unfold M. clear. induction mid as [|c mid IH]; [done|].
    rewrite list_to_set_disj_cons, gmultiset_size_disj_union,
      gmultiset_size_singleton. simpl. by rewrite IH. }
  rewrite <- !gmultiset_size_disj_union.
  apply gmultiset_subseteq_size.
  intros x.
  rewrite !multiplicity_disj_union, !multiplicity_intersection,
    !multiplicity_disj_union.
  lia.
Qed.
End Multisets.

Section QuickRatio.
Variables a b : list ascii.

Local Abbreviation B := (list_to_set_disj b : gmultiset ascii).

Local Abbreviation quick_inv := (Inv.quick_inv b).

Lemma fullbcount_fold (l : list ascii) (m : gmap ascii Z) (X : gmultiset ascii) :
  (∀ c, default 0%Z (m !! c) = Z.of_nat (multiplicity c X)) →
  ∀ c, default 0%Z
         (foldl (fun (m : gmap ascii Z) (elt : ascii) =>
                   <[elt := (default 0 (m !! elt) + 1)%Z]> m) m l !! c)
       = Z.of_nat (multiplicity c (X ⊎ list_to_set_disj l)).
Proof.
  revert m X. induction l as [|e l IH]; intros m X Hm c.
  - cbn [foldl]. rewrite Hm, list_to_set_disj_nil.
    by rewrite (right_id_L ∅ (⊎)).
  - cbn [foldl]. rewrite (IH _ (X ⊎ {[+ e +]})).
    + f_equal. rewrite list_to_set_disj_cons.
      rewrite !multiplicity_disj_union. lia.
    + intros x. rewrite multiplicity_disj_union, multiplicity_singleton.
      destruct (decide (x = e)) as [->|Hne].
      * rewrite lookup_insert_eq. simpl. rewrite Hm. lia.
      * rewrite lookup_insert_ne by done. rewrite Hm. simpl. lia.
Qed.

Lemma fullbcount_spec (c : ascii) :
  default 0%Z (fullbcount b !! c) = Z.of_nat (multiplicity c B).
Proof.
  unfold fullbcount. rewrite (fullbcount_fold b ∅ ∅).
  - f_equal. by rewrite (left_id_L ∅ (⊎)).
  - intros x. by rewrite lookup_empty, multiplicity_empty.
Qed.

Lemma quick_step_inv P st (e : ascii) :
  quick_inv P st → quick_inv (P ⊎ {[+ e +]}) (quick_step b st e).
Proof.
  intros [Havail Hm]. unfold quick_step.
  set (numb := match st.1 !! e with
               | Some n => n
               | None => default 0%Z (fullbcount b !! e)
               end).
  assert (numb = (Z.of_nat (multiplicity e B) - Z.of_nat (multiplicity e P))%Z) as Hnumb.
  { unfold numb. pose proof (Havail e) as He.
    destruct (st.1 !! e); [done|]. rewrite fullbcount_spec, He. lia. }
  split; simpl.
  - intros c. rewrite multiplicity_disj_union, multiplicity_singleton.
    destruct (decide (c = e)) as [->|Hne].
    + rewrite lookup_insert_eq. simpl. lia.
    + rewrite lookup_insert_ne by done. pose proof (Havail c) as Hc.
      destruct (st.1 !! c); simpl; lia.
  - rewrite size_inter_add, Hm.
    destruct (decide (multiplicity e P < multiplicity e B)) as [Hlt|Hge].
    + destruct (Z.ltb_spec 0 numb); lia.
    + destruct (Z.ltb_spec 0 numb); lia.
Qed.

Lemma quick_fold (l : list ascii) P st :
  quick_inv P st → quick_inv (P ⊎ list_to_set_disj l) (foldl (quick_step b) st l).
Proof.
  revert P st. induction l as [|e l IH]; intros P st Hinv; cbn [foldl].
  - by rewrite list_to_set_disj_nil, (right_id_L ∅ (⊎)).
  - rewrite list_to_set_disj_cons, (assoc_L (⊎)). apply IH.
    by apply quick_step_inv.
Qed.

(** [quick_ratio] counts the multiset intersection of the two
    sequences. *)
Lemma quick_matches_spec :
  quick_matches a b = size (list_to_set_disj a ∩ B : gmultiset ascii).
Proof.
  unfold quick_matches.
  destruct (quick_fold a ∅ (∅, 0)) as [_ H].
  - split; [intros c; cbn [fst]; by rewrite lookup_empty, multiplicity_empty|].
    cbn [snd]. symmetry. apply gmultiset_size_empty_iff.
    apply gmultiset_eq. intros x.
    by rewrite multiplicity_intersection, !multiplicity_empty.
  - by rewrite (left_id_L ∅ (⊎)) in H.
Qed.

Lemma quick_matches_le_min : quick_matches a b ≤ length a `min` length b.
Proof.
  rewrite quick_matches_spec.
  assert (∀ l : list ascii, size (list_to_set_disj l : gmultiset ascii) = length l) as Hlen.
  { induction l as [|c l IH]; [done|].
    rewrite list_to_set_disj_cons, gmultiset_size_disj_union,
      gmultiset_size_singleton. simpl. by rewrite IH. }
  apply Nat.min_glb.
  - rewrite <- (Hlen a). apply gmultiset_subseteq_size.
    intros x. rewrite multiplicity_intersection. lia.
  - rewrite <- (Hlen b). apply gmultiset_subseteq_size.
    intros x. rewrite multiplicity_intersection. lia.
Qed.
End QuickRatio.
End DifflibFacts.

Module DifflibBlocks.
Import PyStr Difflib.

Section Blocks.
Variables a b : list ascii.

Local Abbreviation valid_block := (Inv.valid_block a b).

Lemma b2j_fold_sound (l : list (nat * ascii)) (m : gmap ascii (list nat)) :
  (∀ i e, (i, e) ∈ l → b !! i = Some e) →
  (∀ c js j, m !! c = Some js → j ∈ js → b !! j = Some c) →
  ∀ c js j,
    foldl (fun (b2j : gmap ascii (list nat)) (ie : nat * ascii) =>
             <[ie.2 := default [] (b2j !! ie.2) ++ [ie.1]]> b2j) m l !! c = Some js →
    j ∈ js → b !! j = Some c.
Proof.
  revert m. induction l as [|[i e] l IH]; intros m Hl Hm c js j; cbn [foldl].
  - apply Hm.
  - apply IH.
    + intros i' e' Hin. apply Hl. by right.
    + clear c js j. intros c js j. cbn [fst snd].
      destruct (decide (c = e)) as [->|Hne].
      * rewrite lookup_insert_eq. intros [= <-] Hj.
        apply elem_of_app in Hj as [Hj|Hj].
        -- destruct (m !! e) as [js'|] eqn:E; simpl in Hj.
           ++ by apply (Hm e js').
           ++ by apply elem_of_nil in Hj.
        -- apply list_elem_of_singleton in Hj as ->. apply Hl. by left.
      * rewrite lookup_insert_ne by done. apply Hm.
Qed.

Lemma chain_b_sound (c : ascii) (js : list nat) (j : nat) :
  chain_b b !! c = Some js → j ∈ js → b !! j = Some c.
Proof.
  assert (∀ c js j, b2j_all b !! c = Some js → j ∈ js → b !! j = Some c) as Hall.
  { apply b2j_fold_sound.
    - intros i e Hin. apply elem_of_lookup_imap in Hin as (i' & e' & [= -> ->] & H).
      done.
    - intros ? ? ?. by rewrite lookup_empty. }
  unfold chain_b. destruct (200 <=? length b).
  - intros H. apply map_lookup_filter_Some in H as [H _]. by apply Hall.
  - apply Hall.
Qed.

Lemma positions_sound (i j : nat) :
  j ∈ positions a b i → a !! i = b !! j.
Proof.
  unfold positions. destruct (a !! i) as [x|] eqn:Ea.
  - destruct (chain_b b !! x) as [js|] eqn:Eb; simpl.
    + intros Hj. symmetry. by apply (chain_b_sound x js).
    + intros Hj. by apply elem_of_nil in Hj.
  - intros Hj. by apply elem_of_nil in Hj.
Qed.

Section Region.
Variables alo ahi blo bhi : nat.

Local Abbreviation ends_at := (Inv.ends_at a b alo blo bhi).
Local Abbreviation prev_ok := (Inv.prev_ok a b alo blo bhi).

Lemma j2len_get_run (i j : nat) (j2len : gmap nat nat) :
  prev_ok i j2len → alo ≤ i → blo ≤ j → j < bhi → a !! i = b !! j →
  ends_at i j (j2len_get j2len j + 1).
Proof.
  intros Hprev Hi Hj Hjhi Heq. unfold j2len_get.
  destruct j as [|j'].
  { repeat split; try lia. intros t Ht.
    replace t with 0 by lia. by rewrite Nat.sub_0_r. }
  destruct (j2len !! j') as [k|] eqn:E; simpl.
  - destruct (Hprev _ _ E) as (r & -> & Hk & Hr & Hkr & Hbj & Hkj & _ & Hrun).
    repeat split; try lia.
    intros t Ht. destruct t as [|t]; [by rewrite !Nat.sub_0_r|].
    replace (S r - S t) with (r - t) by lia.
    replace (S j' - S t) with (j' - t) by lia.
    apply Hrun. lia.
  - repeat split; try lia. intros t Ht.
    replace t with 0 by lia. by rewrite !Nat.sub_0_r.
Qed.

Lemma ends_at_block (i j k : nat) :
  i < ahi → ends_at i j k →
  valid_block alo ahi blo bhi (mkMatch (i + 1 - k) (j + 1 - k) k).
Proof.
  intros Hi (Hk & Hr & Hkr & Hbj & Hkj & Hjhi & Hrun).
  unfold Inv.valid_block; cbn [blk_a blk_b blk_size].
  repeat split; try lia.
  intros t Ht.
  replace (i + 1 - k + t) with (i - (k - 1 - t)) by lia.
  replace (j + 1 - k + t) with (j - (k - 1 - t)) by lia.
  apply Hrun. lia.
Qed.

Lemma flm_row_ok (i : nat) (j2len : gmap nat nat) (js : list nat)
    (newj2len : gmap nat nat) (best : Match) :
  alo ≤ i → i < ahi →
  prev_ok i j2len →
  (∀ j, j ∈ js → a !! i = b !! j) →
  prev_ok (S i) newj2len →
  valid_block alo ahi blo bhi best →
  prev_ok (S i) (flm_row blo bhi i j2len js newj2len best).1
  ∧ valid_block alo ahi blo bhi (flm_row blo bhi i j2len js newj2len best).2.
Proof.
  intros Hlo Hhi Hprev. revert newj2len best.
  induction js as [|j js IH]; intros newj2len best Hjs Hnew Hbest; cbn [flm_row].
  { done. }
  assert (∀ j', j' ∈ js → a !! i = b !! j') as Hjs'
    by (intros j' Hj'; apply Hjs; by right).
  destruct (Nat.ltb_spec j blo) as [Hjlo|Hjlo]; [by apply IH|].
  destruct (Nat.leb_spec bhi j) as [Hjhi|Hjhi]; [done|].
  assert (ends_at i j (j2len_get j2len j + 1)) as Hrun.
  { apply j2len_get_run; try done. apply Hjs. by left. }
  apply IH; [done| |].
  - intros j' k'. destruct (decide (j' = j)) as [->|Hne].
    + rewrite lookup_insert_eq. intros [= <-]. by exists i.
    + rewrite lookup_insert_ne by done. apply Hnew.
  - destruct (blk_size best <? j2len_get j2len j + 1); [|done].
    by apply ends_at_block.
Qed.

Lemma flm_fold_ok (n i : nat) (st : gmap nat nat * Match) :
  alo ≤ i → i + n ≤ ahi →
  prev_ok i st.1 → valid_block alo ahi blo bhi st.2 →
  valid_block alo ahi blo bhi
    (foldl (fun (st : gmap nat nat * Match) (i : nat) =>
              flm_row blo bhi i st.1 (positions a b i) ∅ st.2) st (seq i n)).2.
Proof.
  revert i st. induction n as [|n IH]; intros i st Hlo Hhi Hprev Hbest; cbn [seq foldl].
  { done. }
  assert (prev_ok (S i) ∅) as Hempty by (intros j k; by rewrite lookup_empty).
  assert (i < ahi) as Hi by lia.
  destruct (flm_row_ok i st.1 (positions a b i) ∅ st.2 Hlo Hi Hprev
              (fun j => positions_sound i j) Hempty Hbest) as [H1 H2].
  apply IH; try done; lia.
Qed.

Lemma flm_scan_valid :
  alo ≤ ahi → blo ≤ bhi →
  valid_block alo ahi blo bhi (flm_scan a b alo ahi blo bhi).
Proof.
  intros Ha Hb. unfold flm_scan. apply flm_fold_ok; try lia.
  - intros j k. cbn [fst]. by rewrite lookup_empty.
  - unfold Inv.valid_block; cbn. repeat split; lia.
Qed.

Lemma elt_eq_true (x y : option ascii) : elt_eq x y = true → x = y.
Proof.
  destruct x, y; simpl; try done. intros H. by apply bool_decide_eq_true in H as ->.
Qed.

Lemma grow_left_valid (fuel : nat) (junk : bool) (m : Match) :
  valid_block alo ahi blo bhi m →
  valid_block alo ahi blo bhi (grow_left a b fuel junk alo blo m).
Proof.
  revert m. induction fuel as [|fuel IH]; intros m Hm; cbn [grow_left]; [done|].
  destruct (_ && _) eqn:E; [|done].
  apply IH. repeat (apply andb_prop in E as [E ?]).
  apply Nat.ltb_lt in E.
  match goal with H : (blo <? _) = true |- _ => apply Nat.ltb_lt in H end.
  match goal with H : elt_eq _ _ = true |- _ => apply elt_eq_true in H; rename H into Heq end.
  destruct Hm as (V1 & V2 & V3 & V4 & Hrun).
  unfold Inv.valid_block; cbn [blk_a blk_b blk_size].
  repeat split; try lia.
  intros t Ht. destruct t as [|t].
  - by rewrite !Nat.add_0_r.
  - replace (blk_a m - 1 + S t) with (blk_a m + t) by lia.
    replace (blk_b m - 1 + S t) with (blk_b m + t) by lia.
    apply Hrun. lia.
Qed.

Lemma grow_right_valid (fuel : nat) (junk : bool) (m : Match) :
  valid_block alo ahi blo bhi m →
  valid_block alo ahi blo bhi (grow_right a b fuel junk ahi bhi m).
Proof.
  revert m. induction fuel as [|fuel IH]; intros m Hm; cbn [grow_right]; [done|].
  destruct (_ && _) eqn:E; [|done].
  apply IH. repeat (apply andb_prop in E as [E ?]).
  apply Nat.ltb_lt in E.
  match goal with H : (_ <? bhi) = true |- _ => apply Nat.ltb_lt in H end.
  match goal with H : elt_eq _ _ = true |- _ => apply elt_eq_true in H; rename H into Heq end.
  destruct Hm as (V1 & V2 & V3 & V4 & Hrun).
  unfold Inv.valid_block; cbn [blk_a blk_b blk_size].
  repeat split; try lia.
  intros t Ht. destruct (decide (t = blk_size m)) as [->|Hne]; [done|].
  apply Hrun. lia.
Qed.

(** The two extension loops stop by their own test: the fuel given in
    [find_longest_match] is never what ends them. *)
Lemma grow_left_fuel (fuel : nat) (junk : bool) (m : Match) :
  blk_a m - alo ≤ fuel →
  grow_left a b fuel junk alo blo m = grow_left a b (blk_a m - alo) junk alo blo m.
Proof.
  revert m. induction fuel as [|fuel IH]; intros m Hfuel.
  { by replace (blk_a m - alo) with 0 by lia. }
  cbn [grow_left].
  destruct (blk_a m - alo) as [|n] eqn:En.
  - cbn [grow_left]. destruct (Nat.ltb_spec alo (blk_a m)) as [Hlt|Hge]; [lia|done].
  - cbn [grow_left]. destruct (_ && _) eqn:E; [|done].
    rewrite IH by (cbn [blk_a]; lia). f_equal. cbn [blk_a]. lia.
Qed.

Lemma grow_right_fuel (fuel : nat) (junk : bool) (m : Match) :
  ahi - (blk_a m + blk_size m) ≤ fuel →
  grow_right a b fuel junk ahi bhi m
  = grow_right a b (ahi - (blk_a m + blk_size m)) junk ahi bhi m.
Proof.
  revert m. induction fuel as [|fuel IH]; intros m Hfuel.
  { by replace (ahi - (blk_a m + blk_size m)) with 0 by lia. }
  cbn [grow_right].
  destruct (ahi - (blk_a m + blk_size m)) as [|n] eqn:En.
  - cbn [grow_right].
    destruct (Nat.ltb_spec (blk_a m + blk_size m) ahi) as [Hlt|Hge]; [lia|done].
  - cbn [grow_right]. destruct (_ && _) eqn:E; [|done].
    rewrite IH by (cbn [blk_a blk_size]; lia). f_equal. cbn [blk_a blk_size]. lia.
Qed.

(** [find_longest_match] returns a block of the region whose two
    sides are equal. *)
Lemma find_longest_match_valid :
  alo ≤ ahi → blo ≤ bhi →
  valid_block alo ahi blo bhi (find_longest_match a b alo ahi blo bhi).
Proof.
  intros Ha Hb. unfold find_longest_match.
  apply grow_right_valid, grow_left_valid, grow_right_valid, grow_left_valid.
  by apply flm_scan_valid.
Qed.
End Region.
End Blocks.
End DifflibBlocks.

Module DifflibRatio.
Import PyStr Difflib Inv DifflibFacts DifflibBlocks.

Lemma slice_split (l : list ascii) (lo mid hi : nat) :
  lo ≤ mid → mid ≤ hi → slice l lo hi = slice l lo mid ++ slice l mid hi.
Proof.
  intros H1 H2. unfold Inv.slice.
  replace (hi - lo) with ((mid - lo) + (hi - mid)) by lia.
  rewrite <- take_take_drop, drop_drop. do 3 f_equal. lia.
Qed.

Lemma slice_all (l : list ascii) : slice l 0 (length l) = l.
Proof. unfold Inv.slice. rewrite Nat.sub_0_r, drop_0. apply firstn_all. Qed.

Lemma sum_list_with_cons {A : Type} (f : A → nat) (x : A) (l : list A) :
  sum_list_with f (x :: l) = f x + sum_list_with f l.
Proof. done. Qed.

Section Potential.
Variables a b : list ascii.

Local Abbreviation valid_block := (Inv.valid_block a b).
Local Abbreviation wf_region := (Inv.wf_region a b).
Local Abbreviation cap := (Inv.cap a b).

Lemma block_slices (alo ahi blo bhi : nat) (m : Match) :
  valid_block alo ahi blo bhi m → bhi ≤ length b →
  slice a (blk_a m) (blk_a m + blk_size m) = slice b (blk_b m) (blk_b m + blk_size m)
  ∧ length (slice b (blk_b m) (blk_b m + blk_size m)) = blk_size m.
Proof.
  intros (H1 & H2 & H3 & H4 & Hrun) Hb. split.
  - apply list_eq. intros t. unfold Inv.slice.
    replace (blk_a m + blk_size m - blk_a m) with (blk_size m) by lia.
    replace (blk_b m + blk_size m - blk_b m) with (blk_size m) by lia.
    destruct (decide (t < blk_size m)) as [Ht|Ht].
    + rewrite !lookup_take_lt, !lookup_drop by done. by apply Hrun.
    + rewrite !lookup_take_ge by lia. done.
  - unfold Inv.slice. rewrite length_take, length_drop. lia.
Qed.

Lemma cap_split (alo ahi blo bhi : nat) (m : Match) :
  valid_block alo ahi blo bhi m → bhi ≤ length b →
  cap (alo, blk_a m, blo, blk_b m) + blk_size m
  + cap (blk_a m + blk_size m, ahi, blk_b m + blk_size m, bhi)
  ≤ cap (alo, ahi, blo, bhi).
Proof.
  intros Hm Hb. destruct (block_slices _ _ _ _ _ Hm Hb) as [Heq Hlen].
  destruct Hm as (H1 & H2 & H3 & H4 & _).
  unfold Inv.cap; cbn [fst snd].
  rewrite (slice_split a alo (blk_a m) ahi) by lia.
  rewrite (slice_split a (blk_a m) (blk_a m + blk_size m) ahi) by lia.
  rewrite (slice_split b blo (blk_b m) bhi) by lia.
  rewrite (slice_split b (blk_b m) (blk_b m + blk_size m) bhi) by lia.
  rewrite Heq. rewrite <- Hlen at 1. apply size_inter_split.
Qed.

Lemma gmb_loop_spec (fuel : nat) (queue : list region) (acc : list Match) :
  Forall wf_region queue →
  sum_list_with weight queue ≤ fuel →
  ∃ blocks,
    gmb_loop a b fuel queue acc = Some blocks
    ∧ sum_list_with blk_size blocks
      ≤ sum_list_with blk_size acc + sum_list_with cap queue.
Proof.
  revert queue acc. induction fuel as [|fuel IH]; intros queue acc Hwf Hfuel.
  { destruct queue as [|R queue]; [exists acc; simpl; split; [done|lia]|].
    exfalso. simpl in Hfuel. unfold Inv.weight in Hfuel. lia. }
  destruct queue as [|[[[alo ahi] blo] bhi] queue].
  { exists acc. simpl. split; [done|lia]. }
  apply Forall_cons in Hwf as [(Ha & Hla & Hb & Hlb) Hwf]. cbn [fst snd] in *.
  cbn [gmb_loop].
  pose proof (find_longest_match_valid a b alo ahi blo bhi Ha Hb) as Hx.
  set (x := find_longest_match a b alo ahi blo bhi) in *.
  pose proof (cap_split _ _ _ _ _ Hx Hlb) as Hcap.
  destruct Hx as (H1 & H2 & H3 & H4 & _).
  rewrite sum_list_with_cons in Hfuel. unfold Inv.weight at 1 in Hfuel. cbn [fst snd] in Hfuel.
  destruct (Nat.eqb_spec (blk_size x) 0) as [Hk|Hk].
  { destruct (IH queue acc Hwf) as (blocks & Hrun & Hsum); [lia|].
    exists blocks. split; [done|]. rewrite sum_list_with_cons. lia. }
  set (cl := (alo <? blk_a x) && (blo <? blk_b x)).
  set (cr := (blk_a x + blk_size x <? ahi) && (blk_b x + blk_size x <? bhi)).
  set (lq := if cl then [(alo, blk_a x, blo, blk_b x)] else []).
  set (rq := if cr then [(blk_a x + blk_size x, ahi, blk_b x + blk_size x, bhi)] else []).
  assert (Forall wf_region lq ∧ sum_list_with weight lq ≤ 2 * (blk_a x - alo) + 1
          ∧ sum_list_with cap lq ≤ cap (alo, blk_a x, blo, blk_b x)) as (Lwf & Lw & Lc).
  { unfold lq. destruct cl.
    - split; [|split].
      + apply Forall_singleton. unfold Inv.wf_region; cbn [fst snd]. lia.
      + rewrite sum_list_with_cons. unfold Inv.weight; cbn. lia.
      + rewrite sum_list_with_cons. cbn. lia.
    - split; [done|]. cbn. lia. }
  assert (Forall wf_region rq
          ∧ sum_list_with weight rq ≤ 2 * (ahi - (blk_a x + blk_size x)) + 1
          ∧ sum_list_with cap rq
            ≤ cap (blk_a x + blk_size x, ahi, blk_b x + blk_size x, bhi))
    as (Rwf & Rw & Rc).
  { unfold rq. destruct cr.
    - split; [|split].
      + apply Forall_singleton. unfold Inv.wf_region; cbn [fst snd]. lia.
      + rewrite sum_list_with_cons. unfold Inv.weight; cbn. lia.
      + rewrite sum_list_with_cons. cbn. lia.
    - split; [done|]. cbn. lia. }
  destruct (IH (rq ++ lq ++ queue) (acc ++ [x])) as (blocks & Hrun & Hsum).
  { by repeat apply Forall_app_2. }
  { rewrite !sum_list_with_app. lia. }
  exists blocks. split; [done|].
  rewrite !sum_list_with_app, sum_list_with_cons in Hsum.
  rewrite sum_list_with_cons. cbn [sum_list_with] in Hsum. lia.
Qed.

(** The block search ends within its fuel. *)
Lemma raw_blocks_run :
  gmb_loop a b (gmb_fuel a) [(0, length a, 0, length b)] [] = Some (raw_blocks a b).
Proof.
  destruct (gmb_loop_spec (gmb_fuel a) [(0, length a, 0, length b)] [])
    as (blocks & Hrun & _).
  - apply Forall_singleton. unfold Inv.wf_region; cbn. lia.
  - rewrite sum_list_with_cons. unfold Inv.weight, gmb_fuel; cbn. lia.
  - unfold raw_blocks. by rewrite Hrun.
Qed.

Lemma raw_blocks_sum :
  sum_list_with blk_size (raw_blocks a b)
  ≤ size (list_to_set_disj a ∩ list_to_set_disj b : gmultiset ascii).
Proof.
  destruct (gmb_loop_spec (gmb_fuel a) [(0, length a, 0, length b)] [])
    as (blocks & Hrun & Hsum).
  - apply Forall_singleton. unfold Inv.wf_region; cbn. lia.
  - rewrite sum_list_with_cons. unfold Inv.weight, gmb_fuel; cbn. lia.
  - unfold raw_blocks. rewrite Hrun. cbn [default].
    rewrite sum_list_with_cons in Hsum. unfold Inv.cap in Hsum at 1. cbn [fst snd] in Hsum.
    rewrite !slice_all in Hsum. cbn [sum_list_with] in Hsum. unfold id. lia.
Qed.

Lemma collapse_fold_sum (blocks : list Match) (st : Match * list Match) :
  sum_list_with blk_size (foldl collapse_step st blocks).2
  + blk_size (foldl collapse_step st blocks).1
  = sum_list_with blk_size st.2 + blk_size st.1 + sum_list_with blk_size blocks.
Proof.
  revert st. induction blocks as [|x blocks IH]; intros st; cbn [foldl].
  { cbn. lia. }
  rewrite IH, sum_list_with_cons. unfold collapse_step.
  destruct (_ && _); cbn [fst snd blk_size].
  - lia.
  - destruct (Nat.eqb_spec (blk_size st.1) 0) as [Hz|Hz].
    + lia.
    + rewrite sum_list_with_app. cbn. lia.
Qed.

Lemma collapse_sum (blocks : list Match) :
  sum_list_with blk_size (collapse blocks) = sum_list_with blk_size blocks.
Proof.
  unfold collapse. pose proof (collapse_fold_sum blocks (mkMatch 0 0 0, [])) as H.
  cbn [fst snd blk_size] in H.
  destruct (Nat.eqb_spec (blk_size (foldl collapse_step (mkMatch 0 0 0, []) blocks).1) 0)
    as [Hz|Hz].
  - cbn in H. lia.
  - rewrite sum_list_with_app. cbn in *. lia.
Qed.

Lemma matches_raw : matches a b = sum_list_with blk_size (raw_blocks a b).
Proof.
  unfold matches, get_matching_blocks.
  rewrite sum_list_with_app, collapse_sum, sum_list_with_cons.
  cbn [sum_list_with blk_size].
  rewrite (merge_sort_Permutation match_le (raw_blocks a b)). lia.
Qed.

(** [ratio() <= quick_ratio() <= real_quick_ratio()], on the counts. *)
Lemma matches_le_quick : matches a b ≤ quick_matches a b.
Proof. rewrite matches_raw, quick_matches_spec. apply raw_blocks_sum. Qed.

End Potential.
End DifflibRatio.

Module CloseMatches.
Import PyStr Difflib DifflibFacts DifflibBlocks DifflibRatio.

Lemma calculate_ratio_mono (m m' len : nat) :
  m ≤ m' → (calculate_ratio m len <= calculate_ratio m' len)%Q.
Proof.
  intros H. unfold calculate_ratio. destruct len as [|len]; [apply Qle_refl|].
  unfold Qle. cbn [Qnum Qden]. apply Z.mul_le_mono_nonneg_r; lia.
Qed.

Lemma ratio_le_quick_ratio (a b : list ascii) : (ratio a b <= quick_ratio a b)%Q.
Proof. apply calculate_ratio_mono, matches_le_quick. Qed.

Lemma quick_ratio_le_real (a b : list ascii) : (quick_ratio a b <= real_quick_ratio a b)%Q.
Proof. apply calculate_ratio_mono, quick_matches_le_min. Qed.

(** The three tests of [get_close_matches] amount to the last one. *)
Lemma close_enough_ratio (cutoff : Q) (word x : string) :
  close_enough cutoff word x = true ↔ (cutoff <= ratio (chars x) (chars word))%Q.
Proof.
  unfold close_enough. rewrite !andb_true_iff, !Qle_bool_iff. split; [tauto|].
  intros H.
  pose proof (ratio_le_quick_ratio (chars x) (chars word)).
  pose proof (quick_ratio_le_real (chars x) (chars word)).
  repeat split; [|..|done]; eauto using Qle_trans.
Qed.

Lemma foldl_snoc_filter {A B : Type} (f : A → bool) (g : A → B) (l : list A) (acc : list B) :
  foldl (fun (acc : list B) (x : A) => if f x then acc ++ [g x] else acc) acc l
  = acc ++ map g (filter (fun x => f x = true) l).
Proof.
  revert acc. induction l as [|x l IH]; intros acc; cbn [foldl].
  - by rewrite app_nil_r.
  - rewrite IH, filter_cons. destruct (f x) eqn:E.
    + rewrite decide_True by done. by rewrite <- app_assoc.
    + rewrite decide_False by congruence. done.
Qed.

Lemma nlargest_one_nil (scored : list (Q * string)) :
  map snd (nlargest 1 scored) = [] ↔ scored = [].
Proof.
  unfold nlargest.
  pose proof (merge_sort_Permutation (flip scored_le) scored) as Hperm.
  apply Permutation_length in Hperm.
  destruct (merge_sort (flip scored_le) scored) as [|y ys], scored as [|z zs];
    simpl in *; split; intros; done.
Qed.

Lemma get_close_matches_nonempty (word : string) (possibilities : list string) (cutoff : Q) :
  get_close_matches word possibilities 1 cutoff ≠ []
  ↔ ∃ x, x ∈ possibilities ∧ close_enough cutoff word x = true.
Proof.
  unfold get_close_matches.
  rewrite (foldl_snoc_filter (close_enough cutoff word)
             (fun x => (ratio (chars x) (chars word), x)) possibilities []).
  cbn [app]. rewrite nlargest_one_nil.
  split.
  - intros Hne.
    destruct (filter (fun x => close_enough cutoff word x = true) possibilities)
      as [|x l] eqn:E; [done|].
    assert (x ∈ filter (fun x => close_enough cutoff word x = true) possibilities) as Hf
      by (rewrite E; by left).
    apply list_elem_of_filter in Hf as [Hx Hin]. by exists x.
  - intros (x & Hin & Hx) Heq.
    assert (x ∈ filter (fun x => close_enough cutoff word x = true) possibilities) as Hf
      by (by apply list_elem_of_filter).
    destruct (filter _ possibilities); [by apply elem_of_nil in Hf|done].
Qed.

(** The fallback accepts an item exactly when some token of the text
    reaches the ratio 0.8 against the lower-cased item. *)
Lemma fuzzy_match_ratio (text item : string) :
  fuzzy_match text item = true
  ↔ ∃ t, t ∈ split text ∧ (0.8 <= ratio (chars t) (chars (lower item)))%Q.
Proof.
  unfold fuzzy_match.
  pose proof (get_close_matches_nonempty (lower item) (split text) 0.8%Q) as H.
  setoid_rewrite close_enough_ratio in H. rewrite <- H.
  destruct (get_close_matches _ _ _ _); split; done.
Qed.

(** The loop of [extract_items_from_text] is a filter. *)
Lemma extract_items_from_text_filter (text : string) (item_list : list string) :
  extract_items_from_text text item_list
  = filter (fun item => exact_match text item || fuzzy_match text item = true) item_list.
Proof.
  unfold extract_items_from_text.
  enough (∀ acc : list string,
            foldl (fun (found_items : list string) (item : string) =>
                     if exact_match text item then found_items ++ [item]
                     else if fuzzy_match text item then found_items ++ [item]
                     else found_items) acc item_list
            = acc ++ filter (fun item => exact_match text item || fuzzy_match text item = true)
                       item_list) as H by apply (H []).
  induction item_list as [|item l IH]; intros acc; cbn [foldl].
  - by rewrite app_nil_r.
  - rewrite IH, filter_cons.
    destruct (exact_match text item), (fuzzy_match text item); cbn [orb];
      first [ rewrite decide_True by done; by rewrite <- app_assoc
            | by rewrite decide_False by done ].
Qed.

(** ** Tokens *)

Lemma chars_str (l : list ascii) : chars (str l) = l.
Proof. apply String.list_ascii_of_string_of_list_ascii. Qed.

Lemma str_chars (s : string) : str (chars s) = s.
Proof. apply String.string_of_list_ascii_of_string. Qed.

Lemma split_chars_no_space (tok s : list ascii) :
  Forall (fun c => isspace c = false) tok →
  Forall (fun t => existsb isspace t = false) (split_chars tok s).
Proof.
  revert tok. induction s as [|c s IH]; intros tok Htok; cbn [split_chars].
  - assert (existsb isspace tok = false) as Hno.
    { induction Htok as [|x tok Hx _ IHtok]; [done|]. simpl. by rewrite Hx. }
    destruct tok; [constructor|]. by repeat constructor.
  - assert (existsb isspace tok = false) as Hno.
    { induction Htok as [|x tok Hx _ IHtok]; [done|]. simpl. by rewrite Hx. }
    destruct (isspace c) eqn:Ec.
    + destruct tok; [by apply IH|]. constructor; [done|]. by apply IH.
    + apply IH. apply Forall_app. split; [done|]. by repeat constructor.
Qed.

Lemma split_no_space (text t : string) : t ∈ split text → has_space t = false.
Proof.
  unfold split, has_space. intros Hin.
  apply list_elem_of_fmap in Hin as (l & -> & Hl).
  rewrite chars_str.
  pose proof (split_chars_no_space [] (chars text) (Forall_nil_2 _)) as H.
  rewrite Forall_forall in H. by apply H.
Qed.

Lemma isspace_lower_char (c : ascii) : isspace (lower_char c) = isspace c.
Proof. destruct c as [[] [] [] [] [] [] [] []]; reflexivity. Qed.

Lemma has_space_lower (s : string) : has_space (lower s) = has_space s.
Proof.
  unfold has_space, lower. rewrite chars_str.
  induction (chars s) as [|c l IH]; [done|].
  simpl. by rewrite isspace_lower_char, IH.
Qed.

End CloseMatches.

Module ReFacts.
Import PyStr Re Inv CloseMatches.

Lemma chars_app (s1 s2 : string) : chars (s1 +:+ s2) = chars s1 ++ chars s2.
Proof.
  unfold chars. induction s1 as [|c s1 IH]; [done|].
  simpl. f_equal. exact IH.
Qed.

Lemma special_not_letter (c : ascii) :
  is_special c = true → is_code 98 c = false ∧ is_ascii_alnum c = false.
Proof. destruct c as [[] [] [] [] [] [] [] []]; vm_compute; intuition discriminate. Qed.

Lemma backslash_special (c : ascii) : is_code 92 c = true → is_special c = true.
Proof. destruct c as [[] [] [] [] [] [] [] []]; vm_compute; intuition discriminate. Qed.

(** An escaped string compiles to its own characters, taken
    literally. *)
Lemma compile_escape_chars (w rest : list ascii) :
  compile_chars (escape_chars w ++ rest) = app (map Lit w) <$> compile_chars rest.
Proof.
  induction w as [|c w IH].
  - cbn. by destruct (compile_chars rest).
  - unfold escape_chars in *. cbn [flat_map]. destruct (is_special c) eqn:Es.
    + destruct (special_not_letter c Es) as [Hb Hal].
      cbn [app compile_chars]. change (is_code 92 backslash) with true. cbn iota.
      rewrite Hb, Hal, IH. by destruct (compile_chars rest).
    + cbn [app compile_chars].
      destruct (is_code 92 c) eqn:Eb.
      { apply backslash_special in Eb. congruence. }
      rewrite Es, IH. by destruct (compile_chars rest).
Qed.

Lemma compile_pattern (w : string) :
  compile ("\b" +:+ escape w +:+ "\b")
  = Some (WordBoundary :: map Lit (chars w) ++ [WordBoundary]).
Proof.
  unfold compile, escape. rewrite !chars_app, chars_str.
  change (chars "\b") with [backslash; ascii_of_N 98].
  cbn [app compile_chars]. change (is_code 92 backslash) with true. cbn iota.
  change (is_code 98 (ascii_of_N 98)) with true. cbn iota.
  rewrite compile_escape_chars.
  cbn [compile_chars]. change (is_code 92 backslash) with true. cbn iota.
  change (is_code 98 (ascii_of_N 98)) with true. done.
Qed.

Lemma match_here_literals (w : list ascii) (p : list atom) (prev : option ascii)
    (rest : list ascii) :
  match_here (map Lit w ++ p) prev rest
  = match Spec.is_prefix w rest with
    | Some after => match_here p (last_or prev w) after
    | None => false
    end.
Proof.
  revert prev rest. induction w as [|c w IH]; intros prev rest; [done|].
  cbn [map app match_here Spec.is_prefix]. destruct rest as [|x rest]; [done|].
  destruct (bool_decide_reflect (x = c)) as [->|Hne]; [|done].
  cbn [andb]. rewrite IH. destruct (Spec.is_prefix w rest); [|done].
  f_equal. unfold Inv.last_or. rewrite last_cons. by destruct (last w).
Qed.

Lemma is_prefix_head (w rest after : list ascii) :
  Spec.is_prefix w rest = Some after → w ≠ [] → head rest = head w.
Proof.
  destruct w as [|c w]; [done|]. destruct rest as [|x rest]; [done|].
  cbn. destruct (bool_decide_reflect (x = c)) as [->|]; done.
Qed.

(** For a literal that begins and ends with a word character the two
    [\b] say that no word character stands before or after it. *)
Lemma match_here_whole_word (w : list ascii) (prev : option ascii) (rest : list ascii) :
  word_opt (head w) = true → word_opt (last w) = true →
  match_here (WordBoundary :: map Lit w ++ [WordBoundary]) prev rest
  = Spec.whole_word_here w prev rest.
Proof.
  intros Hh Hl. cbn [match_here]. rewrite match_here_literals.
  unfold Spec.whole_word_here.
  destruct (Spec.is_prefix w rest) as [after|] eqn:E; [|by rewrite !andb_false_r].
  assert (w ≠ []) as Hne by (intros ->; discriminate).
  rewrite (is_prefix_head _ _ _ E Hne).
  cbn [match_here]. rewrite andb_true_r.
  unfold at_boundary, Inv.last_or. rewrite Hh.
  destruct (last w) as [c|]; [|discriminate].
  rewrite Hl. by destruct (word_opt prev), (word_opt (head after)).
Qed.

Lemma search_from_whole_word (w : list ascii) (prev : option ascii) (rest : list ascii) :
  word_opt (head w) = true → word_opt (last w) = true →
  search_from (WordBoundary :: map Lit w ++ [WordBoundary]) prev rest
  = Spec.whole_word_from w prev rest.
Proof.
  intros Hh Hl. revert prev. induction rest as [|x rest IH]; intros prev.
  - cbn [search_from Spec.whole_word_from]. by rewrite match_here_whole_word.
  - cbn [search_from Spec.whole_word_from]. by rewrite match_here_whole_word, IH.
Qed.

(** The exact search of the matcher is the whole-word test whenever the
    lower-cased item begins and ends with a word character. *)
Lemma exact_match_whole_word (text item : string) :
  Spec.word_edged (lower item) = true →
  exact_match text item = Spec.whole_word (lower item) text.
Proof.
  unfold Spec.word_edged, exact_match, search, Spec.whole_word.
  intros [Hh Hl]%andb_true_iff.
  rewrite compile_pattern. by apply search_from_whole_word.
Qed.

(** The yardstick itself: [whole_word] finds exactly the occurrences of
    [w] with no word character right before or right after. *)
Lemma is_prefix_spec (w rest after : list ascii) :
  Spec.is_prefix w rest = Some after ↔ rest = w ++ after.
Proof.
  revert rest. induction w as [|c w IH]; intros rest; cbn.
  - split; [by intros [= ->]|by intros ->].
  - destruct rest as [|x rest]; [done|].
    destruct (bool_decide_reflect (x = c)) as [->|Hne].
    + rewrite IH. split; [by intros ->|by intros [= ->]].
    + split; [done|]. intros [= ? _]. done.
Qed.

Lemma whole_word_from_spec (w : list ascii) (prev : option ascii) (rest : list ascii) :
  Spec.whole_word_from w prev rest = true
  ↔ ∃ pre suf,
      rest = pre ++ w ++ suf
      ∧ word_opt (last_or prev pre) = false
      ∧ word_opt (head suf) = false.
Proof.
  revert prev. induction rest as [|x rest IH]; intros prev.
  - cbn [Spec.whole_word_from]. rewrite orb_false_r. unfold Spec.whole_word_here.
    split.
    + intros [Hp H]%andb_true_iff. apply negb_true_iff in Hp.
      destruct (Spec.is_prefix w []) as [after|] eqn:E; [|done].
      apply is_prefix_spec in E. apply negb_true_iff in H.
      exists [], after. by repeat split.
    + intros (pre & suf & Heq & Hp & Hs).
      symmetry in Heq. apply app_eq_nil in Heq as [-> Heq].
      apply app_eq_nil in Heq as [-> ->].
      cbn in *. unfold Inv.last_or in Hp. cbn in Hp. by rewrite Hp.
  - cbn [Spec.whole_word_from]. rewrite orb_true_iff, IH. unfold Spec.whole_word_here.
    split.
    + intros [[Hp H]%andb_true_iff|(pre & suf & -> & Hp & Hs)].
      * apply negb_true_iff in Hp.
        destruct (Spec.is_prefix w (x :: rest)) as [after|] eqn:E; [|done].
        apply is_prefix_spec in E. apply negb_true_iff in H.
        exists [], after. by repeat split.
      * exists (x :: pre), suf. repeat split; [|done].
        unfold Inv.last_or in *. rewrite last_cons. by destruct (last pre).
    + intros (pre & suf & Heq & Hp & Hs).
      destruct pre as [|y pre].
      * left. cbn in Heq. unfold Inv.last_or in Hp. cbn in Hp. rewrite Hp. cbn.
        pose proof (proj2 (is_prefix_spec w (x :: rest) suf) Heq) as ->.
        by rewrite Hs.
      * right. injection Heq as <- ->. exists pre, suf. repeat split; [|done].
        unfold Inv.last_or in *. rewrite last_cons in Hp. by destruct (last pre).
Qed.

Lemma whole_word_spec (w text : string) :
  Spec.whole_word w text = true
  ↔ ∃ pre suf,
      chars text = pre ++ chars w ++ suf
      ∧ word_opt (last pre) = false
      ∧ word_opt (head suf) = false.
Proof.
  unfold Spec.whole_word. rewrite whole_word_from_spec.
  split; intros (pre & suf & ? & Hp & ?); exists pre, suf; repeat split; try done.
  - unfold Inv.last_or in Hp. by destruct (last pre).
  - unfold Inv.last_or. by destruct (last pre).
Qed.

End ReFacts.

Module Matcher.
Import PyStr Difflib Inv CloseMatches ReFacts.

Lemma closest_ratio_fold (cutoff : Q) (word : string) (tokens : list string) (best : option Q) :
  reaches cutoff
    (foldl (fun (best : option Q) (t : string) =>
              let r := ratio (chars t) (chars word) in
              match best with
              | Some q => if Qle_bool r q then Some q else Some r
              | None => Some r
              end) best tokens) = true
  ↔ reaches cutoff best = true
    ∨ ∃ t, t ∈ tokens ∧ (cutoff <= ratio (chars t) (chars word))%Q.
Proof.
  revert best. induction tokens as [|t tokens IH]; intros best; cbn [foldl].
  - split; [by left|]. intros [H|(t & Hin & _)]; [done|]. by apply elem_of_nil in Hin.
  - rewrite IH. clear IH.
    set (r := ratio (chars t) (chars word)).
    assert (reaches cutoff
              match best with
              | Some q => if Qle_bool r q then Some q else Some r
              | None => Some r
              end = true
            ↔ reaches cutoff best = true ∨ (cutoff <= r)%Q) as Hstep.
    { destruct best as [q|]; cbn [reaches].
      - destruct (Qle_bool r q) eqn:E; cbn [reaches]; rewrite !Qle_bool_iff.
        + apply Qle_bool_iff in E. split; [by left|].
          intros [H|H]; [done|]. by apply Qle_trans with r.
        + apply Qle_bool_false in E. split; [by right|].
          intros [H|H]; [|done]. apply Qlt_le_weak. by apply Qle_lt_trans with q.
      - rewrite Qle_bool_iff. split; [by right|]. by intros [?|?]. }
    rewrite Hstep. split.
    + intros [[H|H]|(t' & Hin & H)].
      * by left.
      * right. exists t. split; [by left|done].
      * right. exists t'. split; [by right|done].
    + intros [H|(t' & Hin & H)]; [by left; left|].
      apply elem_of_cons in Hin as [->|Hin].
      * left. by right.
      * right. by exists t'.
Qed.

(** "The closest token has ratio at least 0.8" is what the fallback of
    the code tests. *)
Lemma fuzzy_present_fuzzy_match (text item : string) :
  Spec.fuzzy_present text item = fuzzy_match text item.
Proof.
  apply eq_true_iff_eq. rewrite fuzzy_match_ratio.
  unfold Spec.fuzzy_present, Spec.closest_ratio.
  change (match ?o with Some r => Qle_bool 0.8 r | None => false end)
    with (reaches 0.8 o).
  rewrite closest_ratio_fold. cbn [reaches]. split; [|by right].
  by intros [?|?].
Qed.

(** On lower-case text and items that begin and end with a word
    character, the matcher returns what the specification describes. *)
Lemma extract_items_from_text_agrees (text : string) (candidates : list string) :
  lower text = text →
  Forall (fun c => Spec.word_edged (lower c) = true) candidates →
  extract_items_from_text text candidates = Spec.findPresentItems text candidates.
Proof.
  intros Hlow Hedged. rewrite extract_items_from_text_filter.
  unfold Spec.findPresentItems.
  induction Hedged as [|c candidates Hc _ IH]; [done|].
  rewrite !filter_cons, IH.
  unfold Spec.present. rewrite Hlow, fuzzy_present_fuzzy_match.
  by rewrite (exact_match_whole_word text c Hc).
Qed.
End Matcher.

(** ** The matcher against the specification *)

(** C2, as the code has it.  For a multi-word item no whitespace-split
    token of the text equals the lower-cased phrase; the fuzzy fallback
    accepts the item exactly when some single token reaches the
    similarity ratio 0.8 against the whole lower-cased phrase; and the
    item is reported present exactly when it is a candidate and either
    the exact search or such a token finds it. *)
Theorem fuzzy_match_multiword (text item : string) :
  PyStr.has_space item = true →
  (∀ t, t ∈ PyStr.split text → t ≠ PyStr.lower item)
  ∧ (fuzzy_match text item = true
     ↔ ∃ t, t ∈ PyStr.split text
            ∧ (0.8 <= Difflib.ratio (PyStr.chars t) (PyStr.chars (PyStr.lower item)))%Q)
  ∧ (∀ candidates,
       item ∈ extract_items_from_text text candidates
       ↔ item ∈ candidates
         ∧ (exact_match text item = true
            ∨ ∃ t, t ∈ PyStr.split text
                   ∧ (0.8 <= Difflib.ratio (PyStr.chars t)
                               (PyStr.chars (PyStr.lower item)))%Q)).
Proof.
  intros Hsp. split; [|split; [apply CloseMatches.fuzzy_match_ratio|]].
  - intros t Ht ->. apply CloseMatches.split_no_space in Ht.
    rewrite CloseMatches.has_space_lower in Ht. congruence.
  - intros candidates.
    rewrite CloseMatches.extract_items_from_text_filter, list_elem_of_filter.
    rewrite orb_true_iff, CloseMatches.fuzzy_match_ratio. tauto.
Qed.

Lemma fuzzy_match_multiword_witness :
  PyStr.has_space "Machine Learning" = true
  ∧ (∀ t, t ∈ PyStr.split "skills: machinelearning, python"
          → t ≠ PyStr.lower "Machine Learning")
  ∧ (fuzzy_match "skills: machinelearning, python" "Machine Learning" = true
     ↔ ∃ t, t ∈ PyStr.split "skills: machinelearning, python"
            ∧ (0.8 <= Difflib.ratio (PyStr.chars t)
                        (PyStr.chars (PyStr.lower "Machine Learning")))%Q).
Proof.
  split; [reflexivity|].
  destruct (fuzzy_match_multiword "skills: machinelearning, python" "Machine Learning")
    as (Htok & Hfuzzy & _); [reflexivity|].
  split; [exact Htok|exact Hfuzzy].
Defined.

(** C2 as stated fails: the token [machinelearning,] has ratio 30/32
    against [machine learning], so the multi-word item is reported
    present by the fallback although the exact search finds nothing. *)
Lemma fuzzy_match_accepts_multiword :
  PyStr.has_space "Machine Learning" = true
  ∧ exact_match "skills: machinelearning, python" "Machine Learning" = false
  ∧ fuzzy_match "skills: machinelearning, python" "Machine Learning" = true
  ∧ extract_items_from_text "skills: machinelearning, python" ["Machine Learning"]
    = ["Machine Learning"].
Proof. vm_compute. done. Qed.

(** C3, evaluated on the code.  The text [comptia security+] holds the
    certification "CompTIA Security+" as a whole phrase, so the
    specification reports it present; the code reports nothing, because
    the closing [\b] of its pattern fails after the non-word character
    [+] and no single token is close to the whole phrase.  Conversely the
    code finds "C++" inside the longer token [c++17]. *)
Theorem extract_items_misses_nonword_edge :
  extract_items_from_text "comptia security+" ["CEH"; "CISSP"; "CompTIA Security+"] = []
  ∧ Spec.findPresentItems "comptia security+" ["CEH"; "CISSP"; "CompTIA Security+"]
    = ["CompTIA Security+"]
  ∧ extract_items_from_text "c++17" ["C++"] = ["C++"]
  ∧ Spec.findPresentItems "c++17" ["C++"] = [].
Proof. vm_compute. done. Qed.

(** * Further properties of the code *)

(** Membership goals on explicit lists. *)
Ltac explicit_lists :=
  repeat match goal with
         | H : _ ∈ _ |- _ => apply list_elem_of_In in H; simpl in H
         end;
  rewrite ?list_elem_of_In; simpl;
  intuition (subst; try discriminate; auto).

(** ** More on the scorer *)

Lemma matched_set_ext (e1 e2 required : list string) :
  (∀ x, x ∈ required → (x ∈ e1 ↔ x ∈ e2)) →
  (list_to_set e1 ∩ list_to_set required : gset string)
  = list_to_set e2 ∩ list_to_set required.
Proof.
  intros H. apply set_eq. intros x.
  rewrite !elem_of_intersection, !elem_of_list_to_set. specialize (H x). tauto.
Qed.

Lemma matched_set_mono (e1 e2 required : list string) :
  (∀ x, x ∈ required → x ∈ e1 → x ∈ e2) →
  size (list_to_set e1 ∩ list_to_set required : gset string)
  ≤ size (list_to_set e2 ∩ list_to_set required : gset string).
Proof.
  intros H. apply subseteq_size. intros x.
  rewrite !elem_of_intersection, !elem_of_list_to_set. specialize (H x). tauto.
Qed.

Lemma fraction_mono (m1 m2 n : nat) :
  m1 ≤ m2 → n ≠ 0 →
  (inject_Z (Z.of_nat m1) / inject_Z (Z.of_nat n) * 100
   <= inject_Z (Z.of_nat m2) / inject_Z (Z.of_nat n) * 100)%Q.
Proof.
  intros Hm Hn.
  assert (0 < inject_Z (Z.of_nat n))%Q as Hpos by (unfold Qlt; simpl; lia).
  assert (inject_Z (Z.of_nat m1) <= inject_Z (Z.of_nat m2))%Q as Hle
    by (unfold Qle; simpl; lia).
  apply Qmult_le_compat_r; [|lra].
  unfold Qdiv. apply Qmult_le_compat_r; [done|].
  apply Qlt_le_weak, Qinv_lt_0_compat, Hpos.
Qed.

Lemma fraction_zero (m n : nat) :
  n ≠ 0 →
  (inject_Z (Z.of_nat m) / inject_Z (Z.of_nat n) * 100 == 0)%Q ↔ m = 0.
Proof.
  intros Hn.
  assert (~ inject_Z (Z.of_nat n) == 0)%Q as Hnz by (unfold Qeq; simpl; lia).
  split.
  - intros H.
    assert (inject_Z (Z.of_nat m) / inject_Z (Z.of_nat n) == 0)%Q as Hx by lra.
    assert (inject_Z (Z.of_nat m)
            == inject_Z (Z.of_nat m) / inject_Z (Z.of_nat n) * inject_Z (Z.of_nat n))%Q
      as Heq by (field; done).
    rewrite Hx in Heq. unfold Qeq in Heq. simpl in Heq. lia.
  - intros ->. field. done.
Qed.

(** X1. Only the membership of the required items in [extracted] counts:
    order, repetitions and items that are not required leave the score
    unchanged. *)
Theorem calculate_match_membership_only (e1 e2 required : list string) :
  (∀ x, x ∈ required → (x ∈ e1 ↔ x ∈ e2)) →
  calculate_match e1 required = calculate_match e2 required.
Proof.
  intros H. rewrite !calculate_match_value. by rewrite (matched_set_ext e1 e2 required H).
Qed.

Lemma calculate_match_membership_only_witness :
  calculate_match ["Git"; "Rust"; "Git"; "Jira"] ["Jira"; "Git"; "Docker"]
  = calculate_match ["Jira"; "Git"] ["Jira"; "Git"; "Docker"].
Proof.
  apply (calculate_match_membership_only
           ["Git"; "Rust"; "Git"; "Jira"] ["Jira"; "Git"] ["Jira"; "Git"; "Docker"]).
  intros x Hx. explicit_lists.
Defined.

(** X2. Finding more of the required items never lowers the score. *)
Theorem calculate_match_monotone (e1 e2 required : list string) :
  (∀ x, x ∈ required → x ∈ e1 → x ∈ e2) →
  ∃ q1 q2 : Q,
    calculate_match e1 required = Ok q1
    ∧ calculate_match e2 required = Ok q2
    ∧ (q1 <= q2)%Q.
Proof.
  intros H. eexists _, _.
  split; [apply calculate_match_value|]. split; [apply calculate_match_value|].
  destruct required as [|r required]; [apply Qle_refl|].
  apply fraction_mono; [by apply matched_set_mono|done].
Qed.

Lemma calculate_match_monotone_witness :
  ∃ q1 q2 : Q,
    calculate_match ["Git"] ["Jira"; "Git"; "Docker"] = Ok q1
    ∧ calculate_match ["Docker"; "Git"] ["Jira"; "Git"; "Docker"] = Ok q2
    ∧ (q1 <= q2)%Q.
Proof.
  apply (calculate_match_monotone ["Git"] ["Docker"; "Git"] ["Jira"; "Git"; "Docker"]).
  intros x _ Hx. explicit_lists.
Defined.

(** X3. For a non-empty required list the score is 0 exactly when no
    required item was extracted, and 100 exactly when every required item
    was extracted and the required list has no duplicate entry. *)
Theorem calculate_match_extremes (extracted required : list string) :
  required ≠ [] →
  ∃ q : Q,
    calculate_match extracted required = Ok q
    ∧ ((q == 0)%Q ↔ ∀ x, x ∈ required → x ∉ extracted)
    ∧ ((q == 100)%Q ↔ NoDup required ∧ required ⊆ extracted).
Proof.
  intros Hne. eexists. split; [apply calculate_match_value|].
  destruct required as [|r required]; [done|].
  set (req := r :: required) in *.
  rewrite fraction_zero, fraction_full by done.
  split.
  - rewrite size_empty_iff. split.
    + intros Hempty x Hx Hin.
      apply (not_elem_of_empty (C := gset string) x). rewrite <- Hempty.
      rewrite elem_of_intersection, !elem_of_list_to_set. done.
    + intros Hnone. apply set_equiv. intros x.
      rewrite elem_of_intersection, !elem_of_list_to_set.
      split; [intros [H1 H2]; by destruct (Hnone x)|].
      by intros ?%not_elem_of_empty.
  - split.
    + intros Hsz.
      assert (size (list_to_set req : gset string) = length req) as Hfull.
      { pose proof (size_list_to_set_le req).
        assert (size (list_to_set extracted ∩ list_to_set req : gset string)
                ≤ size (list_to_set req : gset string))
          by (apply subseteq_size; intros y [_ Hy]%elem_of_intersection; exact Hy).
        lia. }
      split; [by apply size_list_to_set_NoDup|].
      intros x Hx.
      assert ((list_to_set extracted ∩ list_to_set req : gset string) = list_to_set req)
        as Heq.
      { apply set_subseteq_size_eq.
        - intros y [_ Hy]%elem_of_intersection. exact Hy.
        - lia. }
      assert (x ∈ (list_to_set extracted ∩ list_to_set req : gset string)) as Hin
        by (rewrite Heq; by apply elem_of_list_to_set).
      apply elem_of_intersection in Hin as [Hin _]. by apply elem_of_list_to_set in Hin.
    + intros [Hnd Hsub].
      rewrite <- (proj2 (size_list_to_set_NoDup req) Hnd). f_equal.
      apply set_eq. intros x. rewrite elem_of_intersection, !elem_of_list_to_set.
      split; [tauto|]. intros Hx. split; [by apply Hsub|done].
Qed.

Lemma calculate_match_extremes_witness :
  ["Jira"; "Git"] ≠ []
  ∧ ∃ q : Q,
      calculate_match ["Git"; "Jira"; "Rust"] ["Jira"; "Git"] = Ok q
      ∧ ((q == 0)%Q ↔ ∀ x, x ∈ ["Jira"; "Git"] → x ∉ ["Git"; "Jira"; "Rust"])
      ∧ ((q == 100)%Q ↔ NoDup ["Jira"; "Git"] ∧ ["Jira"; "Git"] ⊆ ["Git"; "Jira"; "Rust"]).
Proof.
  split; [done|].
  apply (calculate_match_extremes ["Git"; "Jira"; "Rust"] ["Jira"; "Git"]). done.
Defined.

(** ** Matching, scoring and missing items together *)

Lemma filter_ext_in {A : Type} (P1 P2 : A → Prop)
    `{!∀ x, Decision (P1 x), !∀ x, Decision (P2 x)} (l : list A) :
  (∀ x, x ∈ l → (P1 x ↔ P2 x)) → filter P1 l = filter P2 l.
Proof.
  induction l as [|x l IH]; intros Hext; [done|].
  rewrite !filter_cons.
  rewrite IH by (intros y Hy; apply Hext; by right).
  pose proof (Hext x (list_elem_of_here x l)) as Hx.
  destruct (decide (P1 x)), (decide (P2 x)); try done; tauto.
Qed.

Lemma missing_items_of_filter (P : string → Prop) `{!∀ x, Decision (P x)} (l : list string) :
  missing_items (filter P l) l = filter (fun x => ¬ P x) l.
Proof.
  unfold missing_items. apply filter_ext_in. intros x Hx.
  rewrite list_elem_of_filter. tauto.
Qed.

Lemma filter_filter_not {A : Type} (P : A → Prop) `{!∀ x, Decision (P x)} (l : list A) :
  filter P (filter (fun x => ¬ P x) l) = [].
Proof.
  induction l as [|x l IH]; [done|].
  rewrite filter_cons. destruct (decide (¬ P x)) as [Hn|Hn]; [|done].
  rewrite filter_cons. by rewrite decide_False.
Qed.

Lemma filter_lengths {A : Type} (P : A → Prop) `{!∀ x, Decision (P x)} (l : list A) :
  length (filter P l) + length (filter (fun x => ¬ P x) l) = length l.
Proof.
  rewrite <- length_app. apply Permutation_length, filter_app_complement.
Qed.

Lemma found_items_filter (text : string) (items : list string) :
  missing_items (extract_items_from_text text items) items
  = filter (fun item => ¬ (exact_match text item || fuzzy_match text item = true)) items.
Proof.
  rewrite CloseMatches.extract_items_from_text_filter.
  apply (missing_items_of_filter
           (fun item => exact_match text item || fuzzy_match text item = true)).
Qed.

(** The score of what the matcher finds in a list without repetitions. *)
Lemma found_items_score (text : string) (items : list string) :
  NoDup items → items ≠ [] →
  ∃ q : Q,
    calculate_match (extract_items_from_text text items) items = Ok q
    ∧ (q == inject_Z (Z.of_nat (length (extract_items_from_text text items)))
            / inject_Z (Z.of_nat (length items)) * 100)%Q
    ∧ ((q == 100)%Q ↔ missing_items (extract_items_from_text text items) items = [])
    ∧ ((q == 0)%Q ↔ extract_items_from_text text items = []).
Proof.
  intros Hnd Hne. rewrite found_items_filter.
  rewrite !CloseMatches.extract_items_from_text_filter.
  set (P := fun item => exact_match text item || fuzzy_match text item = true).
  eexists. split; [apply calculate_match_value|].
  destruct items as [|i items]; [done|]. set (l := i :: items) in *.
  assert (size (list_to_set (filter P l) ∩ list_to_set l : gset string)
          = length (filter P l)) as Hsz.
  { rewrite <- (size_list_to_set (C := gset string) (filter P l))
      by (by apply NoDup_filter).
    f_equal. apply set_eq. intros x.
    rewrite elem_of_intersection, !elem_of_list_to_set, list_elem_of_filter. tauto. }
  rewrite Hsz. split; [reflexivity|].
  pose proof (filter_lengths P l) as Hlen.
  rewrite fraction_full, fraction_zero by done.
  subst P. cbv beta in Hlen. split.
  - split.
    + intros Hfull. apply nil_length_inv. lia.
    + intros Hnil. apply (f_equal length) in Hnil. simpl in Hnil. lia.
  - split; [apply nil_length_inv|by intros ->].
Qed.

(** X4. For every text and item list, the found and the missing items
    together are as many as the items, and no missing item would be found
    by the matcher; when the items are distinct and not empty, the score is
    found/items*100, it is 100 exactly when nothing is missing and 0
    exactly when nothing is found. *)
Theorem extraction_score_missing (text : string) (items : list string) :
  let found := extract_items_from_text text items in
  let missing := missing_items found items in
  length found + length missing = length items
  ∧ extract_items_from_text text missing = []
  ∧ (NoDup items → items ≠ [] →
     ∃ q : Q,
       calculate_match found items = Ok q
       ∧ (q == inject_Z (Z.of_nat (length found)) / inject_Z (Z.of_nat (length items)) * 100)%Q
       ∧ ((q == 100)%Q ↔ missing = [])
       ∧ ((q == 0)%Q ↔ found = [])).
Proof.
  intros found missing. subst found missing.
  split; [|split; [|apply found_items_score]].
  - rewrite found_items_filter, CloseMatches.extract_items_from_text_filter.
    apply filter_lengths.
  - rewrite found_items_filter, CloseMatches.extract_items_from_text_filter.
    apply filter_filter_not.
Qed.

Lemma extraction_score_missing_witness :
  let items := ["Python"; "SQL"; "Statistics"] in
  let found := extract_items_from_text "python and sql" items in
  let missing := missing_items found items in
  NoDup items ∧ items ≠ []
  ∧ ∃ q : Q,
      calculate_match found items = Ok q
      ∧ (q == inject_Z (Z.of_nat (length found)) / inject_Z (Z.of_nat (length items)) * 100)%Q
      ∧ ((q == 100)%Q ↔ missing = [])
      ∧ ((q == 0)%Q ↔ found = []).
Proof.
  intros items found missing.
  assert (NoDup items) as Hnd by (apply (bool_decide_unpack _); vm_compute; exact I).
  assert (items ≠ []) as Hne by done.
  split; [exact Hnd|]. split; [exact Hne|].
  destruct (extraction_score_missing "python and sql" items) as (_ & _ & H).
  exact (H Hnd Hne).
Defined.

(** ** More on the overall score and the verdict *)

Lemma verdict_monotone (x y : Q) : (x <= y)%Q → rank (verdict x) ≤ rank (verdict y).
Proof.
  intros Hxy. unfold verdict.
  destruct (Qle_bool 80 x) eqn:X80; destruct (Qle_bool 60 x) eqn:X60;
    destruct (Qle_bool 80 y) eqn:Y80; destruct (Qle_bool 60 y) eqn:Y60;
    cbn [rank]; try lia;
    try apply Qle_bool_iff in X80; try apply Qle_bool_iff in X60;
    try apply Qle_bool_false in Y80; try apply Qle_bool_false in Y60;
    exfalso; lra.
Qed.

(** X5. Raising any of the four percentages never lowers the overall
    score nor the verdict. *)
Theorem better_scores_never_lower_verdict (s t c m s' t' c' m' : Q) :
  (s <= s')%Q → (t <= t')%Q → (c <= c')%Q → (m <= m')%Q →
  (overall s t c m <= overall s' t' c' m')%Q
  ∧ rank (verdict (overall s t c m)) ≤ rank (verdict (overall s' t' c' m')).
Proof.
  intros Hs Ht Hc Hm.
  assert (overall s t c m <= overall s' t' c' m')%Q as H by (unfold overall; lra).
  split; [exact H|by apply verdict_monotone].
Qed.

Lemma better_scores_never_lower_verdict_witness :
  (overall 50 40 0 55 <= overall 100 40 50 55)%Q
  ∧ rank (verdict (overall 50 40 0 55)) ≤ rank (verdict (overall 100 40 50 55)).
Proof.
  apply (better_scores_never_lower_verdict 50 40 0 55 100 40 50 55);
    unfold Qle; simpl; lia.
Defined.

(** X6. With all four percentages in [0,100]: without a matched skill the
    overall score is at most 60 and the verdict is never Excellent; with a
    semantic score of 0 it is at most 70 and never Excellent; with both
    at 0 the verdict is Weak; with both at 100 it is never Weak. *)
Theorem verdict_limits (s t c m : Q) :
  (0 <= s <= 100)%Q → (0 <= t <= 100)%Q → (0 <= c <= 100)%Q → (0 <= m <= 100)%Q →
  ((s == 0)%Q → (overall s t c m <= 60)%Q ∧ verdict (overall s t c m) ≠ Excellent)
  ∧ ((m == 0)%Q → (overall s t c m <= 70)%Q ∧ verdict (overall s t c m) ≠ Excellent)
  ∧ ((s == 0)%Q → (m == 0)%Q → verdict (overall s t c m) = Weak)
  ∧ ((s == 100)%Q → (m == 100)%Q → verdict (overall s t c m) ≠ Weak).
Proof.
  intros Hs Ht Hc Hm.
  assert (∀ x, (x < 80)%Q → verdict x ≠ Excellent) as Hnot_exc.
  { intros x Hx. unfold verdict. destruct (Qle_bool 80 x) eqn:E.
    - apply Qle_bool_iff in E. lra.
    - by destruct (Qle_bool 60 x). }
  assert (∀ x, (x < 60)%Q → verdict x = Weak) as Hweak.
  { intros x Hx. unfold verdict.
    destruct (Qle_bool 80 x) eqn:E80; [apply Qle_bool_iff in E80; lra|].
    destruct (Qle_bool 60 x) eqn:E60; [apply Qle_bool_iff in E60; lra|done]. }
  assert (∀ x, (60 <= x)%Q → verdict x ≠ Weak) as Hnot_weak.
  { intros x Hx. unfold verdict. destruct (Qle_bool 80 x); [done|].
    destruct (Qle_bool 60 x) eqn:E60; [done|]. apply Qle_bool_false in E60. lra. }
  unfold overall in *. repeat split.
  - lra.
  - apply Hnot_exc. lra.
  - lra.
  - apply Hnot_exc. lra.
  - intros H1 H2. apply Hweak. lra.
  - intros H1 H2. apply Hnot_weak. lra.
Qed.

Lemma verdict_limits_witness :
  (overall 0 100 100 0 <= 60)%Q
  ∧ verdict (overall 0 100 100 0) = Weak
  ∧ verdict (overall 100 0 0 100) ≠ Weak.
Proof.
  destruct (verdict_limits 0 100 100 0) as (H1 & _ & H3 & _);
    try (split; unfold Qle; simpl; lia).
  destruct (verdict_limits 100 0 0 100) as (_ & _ & _ & H4);
    try (split; unfold Qle; simpl; lia).
  split; [apply H1; reflexivity|].
  split; [apply H3; reflexivity|apply H4; reflexivity].
Defined.

(** ** More on the recommender *)

(** X7. The recommendations are never empty; with three or more missing
    skills they are the first three missing skills; up to three missing
    skills all come first; and unless all three lists are empty every
    recommendation is a missing item. *)
Theorem top_3_suggestions_priority (ms mt mc : list string) :
  top_3_suggestions ms mt mc ≠ []
  ∧ (3 ≤ length ms → top_3_suggestions ms mt mc = take 3 ms)
  ∧ (length ms ≤ 3 → ms `prefix_of` top_3_suggestions ms mt mc)
  ∧ (ms ++ mt ++ mc ≠ [] →
     ∀ x, x ∈ top_3_suggestions ms mt mc → x ∈ ms ∨ x ∈ mt ∨ x ∈ mc).
Proof.
  unfold top_3_suggestions. rewrite <- (assoc_L (++)).
  destruct (ms ++ mt ++ mc) as [|y l] eqn:E.
  - apply app_eq_nil in E as [-> E]. apply app_eq_nil in E as [-> ->].
    split; [done|]. split; [simpl; lia|]. split; [intros _; apply prefix_nil|done].
  - rewrite <- E. split.
    + rewrite E. done.
    + split; [|split].
      * intros Hlen. by apply take_app_le.
      * intros Hlen. rewrite take_app_ge by done.
        by apply prefix_app_r.
      * intros _ x Hx. apply subseteq_take in Hx.
        rewrite !elem_of_app in Hx. tauto.
Qed.

Lemma top_3_suggestions_priority_witness :
  top_3_suggestions ["React"; "CSS"; "HTML"; "Node.js"] ["Git"] [] = ["React"; "CSS"; "HTML"]
  ∧ ["React"] `prefix_of` top_3_suggestions ["React"] ["Git"; "Jira"; "Miro"] ["PMP"].
Proof.
  destruct (top_3_suggestions_priority ["React"; "CSS"; "HTML"; "Node.js"] ["Git"] [])
    as (_ & H1 & _).
  destruct (top_3_suggestions_priority ["React"] ["Git"; "Jira"; "Miro"] ["PMP"])
    as (_ & _ & H2 & _).
  split; [apply H1; simpl; lia|apply H2; simpl; lia].
Defined.

(** ** More on the text extractor *)

Module TextFacts.
Import PyStr CloseMatches ReFacts.








Lemma chars_length (s : string) : length (chars s) = String.length s.
Proof.
  unfold chars. induction s as [|c s IH]; [done|].
  cbn [String.list_ascii_of_string length String.length]. by rewrite IH.
Qed.

Lemma lower_length (s : string) : String.length (lower s) = String.length s.
Proof. unfold lower. by rewrite <- !chars_length, chars_str, length_map. Qed.

End TextFacts.


(** ** More on the matcher *)

Module MatcherFacts.
Import PyStr Re Inv CloseMatches ReFacts TextFacts.

Lemma space_not_word (c : ascii) : isspace c = true → is_word c = false.
Proof. destruct c as [[] [] [] [] [] [] [] []]; vm_compute; intuition discriminate. Qed.

Lemma search_from_no_word (p : list atom) (prev : option ascii) (rest : list ascii) :
  word_opt prev = false →
  Forall (fun c => is_word c = false) rest →
  search_from (WordBoundary :: p) prev rest = false.
Proof.
  intros Hprev Hrest. revert prev Hprev.
  induction Hrest as [|x rest Hx _ IH]; intros prev Hprev; cbn [search_from match_here].
  - unfold at_boundary. rewrite Hprev. done.
  - unfold at_boundary. rewrite Hprev. cbn [head word_opt]. rewrite Hx.
    cbn [xorb andb orb]. by apply IH.
Qed.

Lemma split_chars_blank (s : list ascii) :
  Forall (fun c => isspace c = true) s → split_chars [] s = [].
Proof.
  induction 1 as [|c s Hc _ IH]; [done|]. cbn [split_chars]. by rewrite Hc.
Qed.

(** What [search_from] finds, for any compiled pattern. *)
Lemma search_from_spec (p : list atom) (prev : option ascii) (rest : list ascii) :
  search_from p prev rest = true
  ↔ ∃ pre suf, rest = pre ++ suf ∧ match_here p (last_or prev pre) suf = true.
Proof.
  revert prev. induction rest as [|x rest IH]; intros prev; cbn [search_from].
  - rewrite orb_false_r. split.
    + intros H. by exists [], [].
    + intros (pre & suf & Heq & H). symmetry in Heq.
      apply app_eq_nil in Heq as [-> ->]. done.
  - rewrite orb_true_iff, IH. split.
    + intros [H|(pre & suf & -> & H)].
      * by exists [], (x :: rest).
      * exists (x :: pre), suf. split; [done|].
        unfold last_or in *. rewrite last_cons. by destruct (last pre).
    + intros (pre & suf & Heq & H). destruct pre as [|y pre].
      * left. cbn [app] in Heq. subst suf. exact H.
      * right. injection Heq as <- ->. exists pre, suf. split; [done|].
        unfold last_or in *. rewrite last_cons in H. by destruct (last pre).
Qed.

Lemma last_or_None (l : list ascii) : last_or None l = last l.
Proof. unfold last_or. by destruct (last l). Qed.

Lemma last_or_app (prev : option ascii) (l1 l2 : list ascii) :
  last_or (last_or prev l1) l2 = last_or prev (l1 ++ l2).
Proof. unfold last_or. rewrite last_app. by destruct (last l2), (last l1). Qed.


(** The occurrences the exact search accepts. *)
Lemma exact_match_spec (text item : string) :
  exact_match text item = true
  ↔ ∃ pre suf : list ascii,
      PyStr.chars text = pre ++ PyStr.chars (PyStr.lower item) ++ suf
      ∧ Re.at_boundary (last pre) (head (PyStr.chars (PyStr.lower item) ++ suf)) = true
      ∧ Re.at_boundary (last (pre ++ PyStr.chars (PyStr.lower item))) (head suf) = true.
Proof.
  unfold exact_match, Re.search. rewrite ReFacts.compile_pattern.
  rewrite MatcherFacts.search_from_spec.
  set (w := PyStr.chars (PyStr.lower item)).
  split.
  - intros (pre & rest & Heq & Hm). cbn [Re.match_here] in Hm.
    apply andb_prop in Hm as [Hb1 Hm]. rewrite ReFacts.match_here_literals in Hm.
    destruct (Spec.is_prefix w rest) as [suf|] eqn:E; [|done].
    apply ReFacts.is_prefix_spec in E as ->.
    cbn [Re.match_here] in Hm. rewrite andb_true_r in Hm.
    rewrite MatcherFacts.last_or_app, MatcherFacts.last_or_None in Hm.
    rewrite MatcherFacts.last_or_None in Hb1.
    exists pre, suf. split; [done|]. split; [exact Hb1|exact Hm].
  - intros (pre & suf & Heq & Hb1 & Hb2).
    exists pre, (w ++ suf). split; [done|]. cbn [Re.match_here].
    rewrite MatcherFacts.last_or_None, Hb1. cbn [andb].
    rewrite ReFacts.match_here_literals.
    rewrite (proj2 (ReFacts.is_prefix_spec w (w ++ suf) suf) eq_refl).
    cbn [Re.match_here]. rewrite andb_true_r.
    rewrite last_app in Hb2. exact Hb2.
Qed.

End MatcherFacts.

(** X9. The result of the matcher is a subsequence of the item list; an
    item is found or not whatever the other items are (the result of a
    concatenation is the concatenation of the results); and matching the
    result again returns it unchanged. *)
Theorem extract_items_subsequence (text : string) (items more : list string) :
  extract_items_from_text text items `sublist_of` items
  ∧ extract_items_from_text text (items ++ more)
    = extract_items_from_text text items ++ extract_items_from_text text more
  ∧ extract_items_from_text text (extract_items_from_text text items)
    = extract_items_from_text text items.
Proof.
  rewrite !CloseMatches.extract_items_from_text_filter.
  split; [apply sublist_filter|]. split; [apply filter_app|].
  rewrite list_filter_filter. apply filter_ext_in. intros x _. tauto.
Qed.

(** X10. On an empty text, or a text of whitespace only, no item is found. *)
Theorem extract_items_blank_text (text : string) (items : list string) :
  Forall (fun c => PyStr.isspace c = true) (PyStr.chars text) →
  extract_items_from_text text items = [].
Proof.
  intros Hblank. rewrite CloseMatches.extract_items_from_text_filter.
  induction items as [|item items IH]; [done|].
  rewrite filter_cons, IH.
  assert (exact_match text item = false) as ->.
  { unfold exact_match, Re.search. rewrite ReFacts.compile_pattern.
    apply MatcherFacts.search_from_no_word; [done|].
    eapply Forall_impl; [exact Hblank|]. apply MatcherFacts.space_not_word. }
  assert (fuzzy_match text item = false) as ->.
  { unfold fuzzy_match, PyStr.split.
    by rewrite (MatcherFacts.split_chars_blank _ Hblank). }
  done.
Qed.

Lemma extract_items_blank_text_witness :
  extract_items_from_text "  " ["Python"; "C++"; ""] = [].
Proof.
  apply (extract_items_blank_text "  " ["Python"; "C++"; ""]).
  repeat constructor.
Defined.



(** X12. The exact search finds an item exactly when its lower-cased form
    occurs in the text, character for character, at a place where a word
    character meets a non-word character (or an end of the text) both
    right before and right after the occurrence. *)
Theorem exact_match_occurrence (text item : string) :
  exact_match text item = true
  ↔ ∃ pre suf : list ascii,
      PyStr.chars text = pre ++ PyStr.chars (PyStr.lower item) ++ suf
      ∧ Re.at_boundary (last pre) (head (PyStr.chars (PyStr.lower item) ++ suf)) = true
      ∧ Re.at_boundary (last (pre ++ PyStr.chars (PyStr.lower item))) (head suf) = true.
Proof. apply MatcherFacts.exact_match_spec. Qed.

(** ** More on the analysis of [main] *)

Section Runs.
Variable calculate_semantic_similarity : string → string → Q.

(** Everything one run returns, in terms of the helper functions and of
    the three lists of the role as the run finds them. *)
Lemma analyse_shows (text name : string) (p : Process) (refs : RoleRefs)
    (s t c : list string) :
  roles p !! name = Some refs →
  store p !! skills_ref refs = Some s →
  store p !! tools_ref refs = Some t →
  store p !! certifications_ref refs = Some c →
  ∃ r : Analysis,
    analyse calculate_semantic_similarity text name p
    = Ok (r, mkProcess (<[skills_ref refs := s ++ take 1 s]> (store p)) (roles p))
    ∧ calculate_match (extract_items_from_text text s) s = Ok (skill_score r)
    ∧ calculate_match (extract_items_from_text text t) t = Ok (tool_score r)
    ∧ calculate_match (extract_items_from_text text c) c = Ok (cert_score r)
    ∧ semantic_score r
      = calculate_semantic_similarity text (PyStr.join_space ((s ++ t) ++ c))
    ∧ overall_score r
      = overall (skill_score r) (tool_score r) (cert_score r) (semantic_score r)
    ∧ missing_skills r = missing_items (extract_items_from_text text s) s
    ∧ missing_tools r = missing_items (extract_items_from_text text t) t
    ∧ missing_certs r = missing_items (extract_items_from_text text c) c
    ∧ recommendations r
      = top_3_suggestions (missing_skills r) (missing_tools r) (missing_certs r)
    ∧ hiring r = verdict (overall_score r)
    ∧ radar_categories r = s ++ take 1 s
    ∧ radar_values r
      = map (fun skill =>
               if bool_decide (skill ∈ extract_items_from_text text s) then 1 else 0)
            (s ++ take 1 s).
Proof.
  intros Hr Hs Ht Hc.
  unfold analyse, mbind, M_bind, get_role, read, lift, iadd, mret, M_ret.
  rewrite Hr. cbn beta iota zeta.
  repeat (first [ rewrite Hs | rewrite Ht | rewrite Hc
                | rewrite calculate_match_value | rewrite lookup_insert_eq ];
          cbn beta iota; cbn [store roles]).
  eexists. split; [reflexivity|].
  cbn [skill_score tool_score cert_score semantic_score overall_score missing_skills
       missing_tools missing_certs recommendations hiring radar_categories radar_values].
  rewrite ?calculate_match_value. repeat split; try reflexivity.
  rewrite map_app. f_equal. by destruct s.
Qed.


Lemma wf_process_extend (p : Process) (l : nat) (old new : list string) :
  wf_process p → store p !! l = Some old →
  wf_process (mkProcess (<[l := new]> (store p)) (roles p)).
Proof.
  intros Hwf Hl name refs Hrefs. cbn [store roles] in *.
  destruct (Hwf name refs Hrefs) as (H1 & H2 & H3).
  repeat split; (rewrite lookup_insert; case_decide; [by eexists|done]).
Qed.

Lemma main_with_role (pages : list string) (role : string) (p : Process) :
  role ≠ "" →
  main calculate_semantic_similarity (Some pages) role p
  = match analyse calculate_semantic_similarity (extract_text_from_pdf pages) role p with
    | Ok (r, p') => Ok (Some r, p')
    | Raise e => Raise e
    end.
Proof.
  intros Hrole. unfold main. rewrite bool_decide_eq_false_2 by done.
  unfold mbind, M_bind. by destruct (analyse _ _ _ _) as [[r p']|e].
Qed.

End Runs.

Lemma wf_startup : wf_process startup.
Proof.
  change (map_Forall (fun (_ : string) (refs : RoleRefs) =>
            is_Some (store startup !! skills_ref refs)
            ∧ is_Some (store startup !! tools_ref refs)
            ∧ is_Some (store startup !! certifications_ref refs)) (roles startup)).
  apply (bool_decide_unpack _). vm_compute. exact I.
Qed.



(** X14. An analysis changes one object of the store only, the skills list
    of the selected role: every other list object is as before, and so is
    the profile of every role that shares no list with it. *)
Theorem analyse_frame (calculate_semantic_similarity : string → string → Q)
    (text name : string) (p : Process) (refs : RoleRefs) :
  wf_process p →
  roles p !! name = Some refs →
  ∃ (r : Analysis) (p' : Process),
    analyse calculate_semantic_similarity text name p = Ok (r, p')
    ∧ roles p' = roles p
    ∧ (∀ l, l ≠ skills_ref refs → store p' !! l = store p !! l)
    ∧ (∀ other orefs,
         roles p !! other = Some orefs →
         skills_ref refs ≠ skills_ref orefs →
         skills_ref refs ≠ tools_ref orefs →
         skills_ref refs ≠ certifications_ref orefs →
         profile_of p' other = profile_of p other).
Proof.
  intros Hwf Hr. destruct (Hwf name refs Hr) as ([s Hs] & [t Ht] & [c Hc]).
  destruct (analyse_shows calculate_semantic_similarity text name p refs s t c Hr Hs Ht Hc)
    as (r & Hrun & _).
  eexists _, _. split; [exact Hrun|]. split; [done|]. split.
  - intros l Hl. cbn [store]. by rewrite lookup_insert_ne.
  - intros other orefs Ho H1 H2 H3. unfold profile_of. cbn [store roles].
    rewrite Ho. cbn. by rewrite !lookup_insert_ne.
Qed.

Lemma analyse_frame_witness :
  ∃ (r : Analysis) (p' : Process),
    analyse (fun _ _ => 50%Q) "html and css" "Web Developer" startup = Ok (r, p')
    ∧ roles p' = roles startup
    ∧ (∀ l, l ≠ 3 → store p' !! l = store startup !! l)
    ∧ (∀ other orefs,
         roles startup !! other = Some orefs →
         3 ≠ skills_ref orefs → 3 ≠ tools_ref orefs → 3 ≠ certifications_ref orefs →
         profile_of p' other = profile_of startup other).
Proof.
  apply (analyse_frame (fun _ _ => 50%Q) "html and css" "Web Developer" startup
           (mkRefs 3 4 5) wf_startup).
  vm_compute. reflexivity.
Defined.

(** ** The radar chart *)

Lemma radar_angles_lookup (categories : list string) (i : nat) (x : Q) :
  radar_angles categories !! i = Some x →
  i < length categories ∧ x = (Z.of_nat i # Pos.of_nat (length categories)).
Proof.
  unfold radar_angles. rewrite list_lookup_fmap.
  destruct (seq 0 (length categories) !! i) as [k|] eqn:E; [|done].
  apply lookup_seq in E as [-> Hlt]. cbn. intros [= <-]. done.
Qed.

Lemma radar_angles_increasing (categories : list string) (i j : nat) (x y : Q) :
  radar_angles categories !! i = Some x →
  radar_angles categories !! j = Some y →
  i < j → (0 <= x)%Q ∧ (x < y)%Q ∧ (y < 1)%Q.
Proof.
  intros [Hi ->]%radar_angles_lookup [Hj ->]%radar_angles_lookup Hij.
  assert (Z.pos (Pos.of_nat (length categories)) = Z.of_nat (length categories)) as Hd.
  { rewrite <- positive_nat_Z. rewrite Nat2Pos.id by lia. done. }
  unfold Qle, Qlt. cbn [Qnum Qden]. rewrite Hd. repeat split; nia.
Qed.

(** X15. The data of the radar chart: the labels are the skills followed by
    the first skill again, the values are 1 for a label that was found and
    0 otherwise, there are as many values and as many angles as labels,
    the first and the last label are the same, and the angles increase
    strictly within one turn, so the repeated label is drawn at an angle
    of its own. *)
Theorem radar_chart_data (calculate_semantic_similarity : string → string → Q)
    (text name : string) (p : Process) (refs : RoleRefs) (s : list string) :
  wf_process p →
  roles p !! name = Some refs →
  store p !! skills_ref refs = Some s →
  ∃ (r : Analysis) (p' : Process),
    analyse calculate_semantic_similarity text name p = Ok (r, p')
    ∧ radar_categories r = s ++ take 1 s
    ∧ radar_values r
      = map (fun skill =>
               if bool_decide (skill ∈ extract_items_from_text text s) then 1 else 0)
            (radar_categories r)
    ∧ length (radar_values r) = length (radar_categories r)
    ∧ length (radar_angles (radar_categories r)) = length (radar_categories r)
    ∧ head (radar_categories r) = last (radar_categories r)
    ∧ (∀ i j x y,
         radar_angles (radar_categories r) !! i = Some x →
         radar_angles (radar_categories r) !! j = Some y →
         i < j → (0 <= x)%Q ∧ (x < y)%Q ∧ (y < 1)%Q).
Proof.
  intros Hwf Hr Hs. destruct (Hwf name refs Hr) as (_ & [t Ht] & [c Hc]).
  destruct (analyse_shows calculate_semantic_similarity text name p refs s t c Hr Hs Ht Hc)
    as (r & Hrun & _ & _ & _ & _ & _ & _ & _ & _ & _ & _ & Hcat & Hval).
  eexists _, _. split; [exact Hrun|]. rewrite Hval, Hcat.
  split; [done|]. split; [done|]. split; [by rewrite length_map|].
  split; [unfold radar_angles; by rewrite length_map, length_seq|].
  split; [|apply radar_angles_increasing].
  destruct s as [|x s']; [done|].
  change (take 1 (x :: s')) with [x]. by rewrite last_snoc.
Qed.

Lemma radar_chart_data_witness :
  ∃ (r : Analysis) (p' : Process),
    analyse (fun _ _ => 50%Q) "penetration testing" "Cybersecurity Analyst" startup = Ok (r, p')
    ∧ radar_categories r
      = ["Network Security"; "Penetration Testing"; "Incident Response"; "Threat Analysis";
         "Network Security"]
    ∧ radar_values r = [0; 1; 0; 0; 0]
    ∧ length (radar_angles (radar_categories r)) = 5.
Proof.
  destruct (radar_chart_data (fun _ _ => 50%Q) "penetration testing" "Cybersecurity Analyst"
              startup (mkRefs 21 22 23)
              ["Network Security"; "Penetration Testing"; "Incident Response"; "Threat Analysis"]
              wf_startup)
    as (r & p' & Hrun & Hcat & Hval & _ & Hang & _);
    [vm_compute; reflexivity ..|].
  exists r, p'. split; [exact Hrun|]. split; [exact Hcat|].
  split; [|by rewrite Hang, Hcat].
  rewrite Hval, Hcat. vm_compute. reflexivity.
Defined.

(** ** A second analysis in the same process *)

(** X16. After one analysis of a role, a second analysis of the same role
    in the same process returns normally, its radar labels are the
    original skills followed by the first skill twice, and its skill
    score stays below 100 whatever the resume says. *)
Theorem second_analysis_never_full (calculate_semantic_similarity : string → string → Q)
    (text1 text2 name : string) (p : Process) (refs : RoleRefs) (s : list string) :
  wf_process p →
  roles p !! name = Some refs →
  store p !! skills_ref refs = Some s →
  ∃ (r1 r2 : Analysis) (p1 p2 : Process),
    analyse calculate_semantic_similarity text1 name p = Ok (r1, p1)
    ∧ analyse calculate_semantic_similarity text2 name p1 = Ok (r2, p2)
    ∧ radar_categories r2 = (s ++ take 1 s) ++ take 1 s
    ∧ (skill_score r2 < 100)%Q.
Proof.
  intros Hwf Hr Hs. destruct (Hwf name refs Hr) as (_ & [t Ht] & [c Hc]).
  destruct (analyse_shows calculate_semantic_similarity text1 name p refs s t c Hr Hs Ht Hc)
    as (r1 & Hrun1 & _).
  set (p1 := mkProcess (<[skills_ref refs := s ++ take 1 s]> (store p)) (roles p)) in *.
  assert (wf_process p1) as Hwf1 by (by apply (wf_process_extend p _ s)).
  assert (roles p1 !! name = Some refs) as Hr1 by done.
  assert (store p1 !! skills_ref refs = Some (s ++ take 1 s)) as Hs1
    by (cbn [p1 store]; by rewrite lookup_insert_eq).
  destruct (Hwf1 name refs Hr1) as (_ & [t1 Ht1] & [c1 Hc1]).
  destruct (analyse_shows calculate_semantic_similarity text2 name p1 refs _ t1 c1
              Hr1 Hs1 Ht1 Hc1)
    as (r2 & Hrun2 & Hscore & _ & _ & _ & _ & _ & _ & _ & _ & _ & Hcat & _).
  exists r1, r2, p1. eexists. split; [exact Hrun1|]. split; [exact Hrun2|].
  split.
  { rewrite Hcat. f_equal. by destruct s. }
  rewrite calculate_match_value in Hscore. injection Hscore as <-.
  destruct s as [|x s']; [reflexivity|].
  change (take 1 (x :: s')) with [x]. change ((x :: s') ++ [x]) with (x :: s' ++ [x]).
  set (found := extract_items_from_text text2 _).
  assert (size (list_to_set found ∩ list_to_set (x :: s' ++ [x]) : gset string)
          ≤ length (x :: s')) as Hle.
  { etrans; [|apply (size_list_to_set_le (x :: s'))].
    apply subseteq_size. intros y [_ Hy]%elem_of_intersection.
    rewrite elem_of_list_to_set in Hy. rewrite elem_of_list_to_set.
    change (x :: s' ++ [x]) with ((x :: s') ++ [x]) in Hy.
    apply elem_of_app in Hy as [Hy|Hy]; [done|].
    apply list_elem_of_singleton in Hy as ->. by left. }
  assert (length (x :: s' ++ [x]) = S (length (x :: s'))) as Hlen
    by (cbn [length]; rewrite length_app; cbn [length]; lia).
  destruct (Qle_lt_or_eq _ _
              (proj2 (fraction_bounds _ (length (x :: s' ++ [x]))
                        (matched_size_le found (x :: s' ++ [x])) ltac:(done))))
    as [Hlt|Heq]; [exact Hlt|].
  apply fraction_full in Heq; [|done]. lia.
Qed.

Lemma second_analysis_never_full_witness :
  let text := "html css javascript react node.js rest apis responsive design" in
  ∃ (r1 r2 : Analysis) (p1 p2 : Process),
    analyse (fun _ _ => 100%Q) text "Web Developer" startup = Ok (r1, p1)
    ∧ analyse (fun _ _ => 100%Q) text "Web Developer" p1 = Ok (r2, p2)
    ∧ (skill_score r2 < 100)%Q.
Proof.
  intros text.
  destruct (second_analysis_never_full (fun _ _ => 100%Q) text text "Web Developer" startup
              (mkRefs 3 4 5)
              ["HTML"; "CSS"; "JavaScript"; "React"; "Node.js"; "REST APIs";
               "Responsive Design"] wf_startup)
    as (r1 & r2 & p1 & p2 & H1 & H2 & _ & H3); [vm_compute; reflexivity ..|].
  by exists r1, r2, p1, p2.
Defined.

(** ** The page *)

Lemma covered_shown (ms mt mc : list string) :
  st_success "✅ Your resume covers all key requirements!" ∈ show_suggestions ms mt mc
  ↔ ms = [] ∧ mt = [] ∧ mc = [].
Proof.
  unfold show_suggestions.
  destruct ms as [|? ?], mt as [|? ?], mc as [|? ?]; cbn [app];
    repeat rewrite ?elem_of_cons, ?elem_of_nil; split;
    try (intros (? & ? & ?); discriminate);
    try (intros H; repeat destruct H as [H|H]; discriminate || done);
    try (intros _; right; left; reflexivity).
Qed.

Lemma top_3_suggestions_length (ms mt mc : list string) :
  1 ≤ length (top_3_suggestions ms mt mc) ≤ 3.
Proof.
  unfold top_3_suggestions. destruct ((ms ++ mt) ++ mc) as [|x l] eqn:E.
  - simpl. lia.
  - rewrite length_take. cbn [length]. lia.
Qed.

(** X17. The two blocks of the page that report missing items agree: the
    all-covered message is shown exactly when the three lists of missing
    items are empty, and then the only recommendation line is the
    "resume is strong" line; a missing category has its line; and when
    something is missing the recommendation block holds, after its
    heading, between one and three lines numbered from 1, each naming a
    missing item. *)
Theorem page_blocks_agree (ms mt mc : list string) :
  (st_success "✅ Your resume covers all key requirements!" ∈ show_suggestions ms mt mc
   ↔ ms = [] ∧ mt = [] ∧ mc = [])
  ∧ (st_success "✅ Your resume covers all key requirements!" ∈ show_suggestions ms mt mc →
     show_recommendations ms mt mc
     = [st_subheader "💡 Top 3 Recommendations";
        st_write "1. No suggestions, resume is strong!"])
  ∧ (ms ≠ [] → st_write ("**Missing Skills:** " +:+ join_comma ms) ∈ show_suggestions ms mt mc)
  ∧ (mt ≠ [] → st_write ("**Missing Tools:** " +:+ join_comma mt) ∈ show_suggestions ms mt mc)
  ∧ (mc ≠ [] →
     st_write ("**Missing Certifications:** " +:+ join_comma mc) ∈ show_suggestions ms mt mc)
  ∧ (ms ++ mt ++ mc ≠ [] →
     2 ≤ length (show_recommendations ms mt mc) ≤ 4
     ∧ ∀ i line,
         show_recommendations ms mt mc !! S i = Some line →
         ∃ x, line = st_write (decimal (S i) +:+ ". " +:+ x)
              ∧ (x ∈ ms ∨ x ∈ mt ∨ x ∈ mc)).
Proof.
  split; [apply covered_shown|].
  split.
  { intros (-> & -> & ->)%covered_shown. reflexivity. }
  split; [|split; [|split]].
  - intros Hne. unfold show_suggestions.
    destruct ms as [|? ?]; [done|].
    destruct mt, mc; right; left; reflexivity.
  - intros Hne. unfold show_suggestions.
    destruct mt as [|? ?]; [done|].
    destruct ms, mc; cbn [app]; repeat rewrite elem_of_cons; tauto.
  - intros Hne. unfold show_suggestions.
    destruct mc as [|? ?]; [done|].
    destruct ms, mt; cbn [app]; repeat rewrite elem_of_cons; tauto.
  - intros Hne. unfold show_recommendations. split.
    + cbn [length]. rewrite length_imap.
      pose proof (top_3_suggestions_length ms mt mc). lia.
    + intros i line Hline.
      change (imap (fun (i : nat) (suggestion : string) =>
                      st_write (decimal (i + 1) +:+ ". " +:+ suggestion))
                (top_3_suggestions ms mt mc) !! i = Some line) in Hline.
      rewrite list_lookup_imap in Hline.
      destruct (top_3_suggestions ms mt mc !! i) as [x|] eqn:E; [|done].
      cbn in Hline. injection Hline as <-. exists x.
      split; [by rewrite Nat.add_1_r|].
      apply list_elem_of_lookup_2 in E. unfold top_3_suggestions in E.
      destruct ((ms ++ mt) ++ mc) as [|y l] eqn:E2.
      { rewrite <- (assoc_L (++)) in E2. done. }
      rewrite <- E2 in E. apply subseteq_take in E.
      rewrite !elem_of_app in E. tauto.
Qed.

(** ** The first analysis of a process *)

Section First.
Variable calculate_semantic_similarity : string → string → Q.

Lemma sentinel_only (ms mt mc : list string) :
  sentinel ∉ ms → sentinel ∉ mt → sentinel ∉ mc →
  top_3_suggestions ms mt mc = [sentinel] ↔ ms = [] ∧ mt = [] ∧ mc = [].
Proof.
  intros H1 H2 H3. split; [|by intros (-> & -> & ->)].
  unfold top_3_suggestions. destruct ((ms ++ mt) ++ mc) as [|y l] eqn:E.
  - intros _. apply app_eq_nil in E as [E ->]. by apply app_eq_nil in E as [-> ->].
  - rewrite <- E. intros Heq.
    assert (sentinel ∈ take 3 ((ms ++ mt) ++ mc)) as Hin by (rewrite Heq; by left).
    apply subseteq_take in Hin. rewrite !elem_of_app in Hin. tauto.
Qed.

Lemma missing_items_subseteq (found required : list string) :
  missing_items found required ⊆ required.
Proof. unfold missing_items. intros x Hx. by apply list_elem_of_filter in Hx as [_ Hx]. Qed.

(** A run on lists without repetitions, none of them empty and none
    holding the sentinel text. *)
Lemma analysis_consistent (text name : string) (p : Process) (refs : RoleRefs)
    (s t c : list string) :
  roles p !! name = Some refs →
  store p !! skills_ref refs = Some s →
  store p !! tools_ref refs = Some t →
  store p !! certifications_ref refs = Some c →
  NoDup s → NoDup t → NoDup c → s ≠ [] → t ≠ [] → c ≠ [] →
  sentinel ∉ s → sentinel ∉ t → sentinel ∉ c →
  ∃ (r : Analysis) (p' : Process),
    analyse calculate_semantic_similarity text name p = Ok (r, p')
    ∧ ((skill_score r == 100)%Q ↔ missing_skills r = [])
    ∧ ((tool_score r == 100)%Q ↔ missing_tools r = [])
    ∧ ((cert_score r == 100)%Q ↔ missing_certs r = [])
    ∧ (recommendations r = [sentinel]
       ↔ (skill_score r == 100)%Q ∧ (tool_score r == 100)%Q ∧ (cert_score r == 100)%Q)
    ∧ (st_success "✅ Your resume covers all key requirements!"
         ∈ show_suggestions (missing_skills r) (missing_tools r) (missing_certs r)
       ↔ (skill_score r == 100)%Q ∧ (tool_score r == 100)%Q ∧ (cert_score r == 100)%Q).
Proof.
  intros Hr Hs Ht Hc Ns Nt Nc Es Et Ec Ss St Sc.
  destruct (analyse_shows calculate_semantic_similarity text name p refs s t c Hr Hs Ht Hc)
    as (r & Hrun & Hsk & Htl & Hce & _ & _ & Hms & Hmt & Hmc & Hrec & _).
  exists r. eexists. split; [exact Hrun|].
  destruct (found_items_score text s Ns Es) as (qs & Hqs & _ & Hfs & _).
  destruct (found_items_score text t Nt Et) as (qt & Hqt & _ & Hft & _).
  destruct (found_items_score text c Nc Ec) as (qc & Hqc & _ & Hfc & _).
  rewrite Hsk in Hqs. rewrite Htl in Hqt. rewrite Hce in Hqc.
  injection Hqs as <-. injection Hqt as <-. injection Hqc as <-.
  rewrite <- Hms in Hfs. rewrite <- Hmt in Hft. rewrite <- Hmc in Hfc.
  split; [exact Hfs|]. split; [exact Hft|]. split; [exact Hfc|].
  rewrite Hfs, Hft, Hfc, Hrec, covered_shown. split; [|done].
  apply sentinel_only.
  - rewrite Hms. intros H. apply Ss. eapply missing_items_subseteq. exact H.
  - rewrite Hmt. intros H. apply St. eapply missing_items_subseteq. exact H.
  - rewrite Hmc. intros H. apply Sc. eapply missing_items_subseteq. exact H.
Qed.

End First.

Ltac first_run sem pages name :=
  edestruct (analysis_consistent sem (extract_text_from_pdf pages) name startup)
    as (r & p' & Hrun & Hrest);
  [vm_compute; reflexivity | vm_compute; reflexivity | vm_compute; reflexivity
  | vm_compute; reflexivity
  | apply (bool_decide_unpack _); vm_compute; exact I
  | apply (bool_decide_unpack _); vm_compute; exact I
  | apply (bool_decide_unpack _); vm_compute; exact I
  | discriminate | discriminate | discriminate
  | apply (bool_decide_unpack _); vm_compute; exact I
  | apply (bool_decide_unpack _); vm_compute; exact I
  | apply (bool_decide_unpack _); vm_compute; exact I
  |];
  exists r, p'; cbn [fst];
  split; [rewrite main_with_role by done; rewrite Hrun; reflexivity|exact Hrest].

(** X18. In the first analysis of a process, for every role of the catalog
    and every resume: a category score is 100 exactly when that category
    has no missing item, and the recommendation is the "resume is strong"
    text, and the page shows the all-covered message, exactly when the
    three category scores are all 100. *)
Theorem first_analysis_consistent
    (calculate_semantic_similarity : string → string → Q) (pages : list string) :
  Forall (fun np : string * RoleProfile =>
            ∃ (r : Analysis) (p' : Process),
              main calculate_semantic_similarity (Some pages) np.1 startup = Ok (Some r, p')
              ∧ ((skill_score r == 100)%Q ↔ missing_skills r = [])
              ∧ ((tool_score r == 100)%Q ↔ missing_tools r = [])
              ∧ ((cert_score r == 100)%Q ↔ missing_certs r = [])
              ∧ (recommendations r = [sentinel]
                 ↔ (skill_score r == 100)%Q ∧ (tool_score r == 100)%Q
                   ∧ (cert_score r == 100)%Q)
              ∧ (st_success "✅ Your resume covers all key requirements!"
                   ∈ show_suggestions (missing_skills r) (missing_tools r) (missing_certs r)
                 ↔ (skill_score r == 100)%Q ∧ (tool_score r == 100)%Q
                   ∧ (cert_score r == 100)%Q))
         JOB_ROLE_DATA.
Proof.
  unfold JOB_ROLE_DATA.
  repeat (apply Forall_cons; split;
          [match goal with
           | |- context [main _ _ (?name, _).1 _] =>
               first_run calculate_semantic_similarity pages name
           end|]).
  apply Forall_nil. done.
Qed.

(** ** Items that begin and end with a word character *)

(** X19. For an item whose lower-cased form begins and ends with a letter,
    a digit or an underscore, the matcher reports the item exactly when it
    is in the list and either that form occurs in the text with no word
    character right before it and none right after it, or a token of the
    text has a similarity ratio of at least 0.8 with it. *)
Theorem extract_items_word_edged (text item : string) (items : list string) :
  Re.word_opt (head (PyStr.chars (PyStr.lower item))) = true →
  Re.word_opt (last (PyStr.chars (PyStr.lower item))) = true →
  item ∈ extract_items_from_text text items
  ↔ item ∈ items
    ∧ ((∃ pre suf : list ascii,
          PyStr.chars text = pre ++ PyStr.chars (PyStr.lower item) ++ suf
          ∧ Re.word_opt (last pre) = false
          ∧ Re.word_opt (head suf) = false)
       ∨ ∃ tok : string,
           tok ∈ PyStr.split text
           ∧ (0.8 <= Difflib.ratio (PyStr.chars tok) (PyStr.chars (PyStr.lower item)))%Q).
Proof.
  intros Hh Hl.
  rewrite CloseMatches.extract_items_from_text_filter, list_elem_of_filter.
  rewrite orb_true_iff, CloseMatches.fuzzy_match_ratio.
  rewrite ReFacts.exact_match_whole_word
    by (unfold Spec.word_edged; by rewrite Hh, Hl).
  rewrite ReFacts.whole_word_spec. tauto.
Qed.

Lemma extract_items_word_edged_witness :
  "Git" ∈ extract_items_from_text "used git, daily" ["Jira"; "Git"].
Proof.
  apply (extract_items_word_edged "used git, daily" "Git" ["Jira"; "Git"]);
    [reflexivity | reflexivity |].
  split; [right; left|].
  left. exists (PyStr.chars "used "), (PyStr.chars ", daily"). by vm_compute.
Defined.

(** ** [difflib]: a sequence compared with itself *)

Module SelfRatio.
Import PyStr Difflib.

Section Self.
Variable a : list ascii.
Hypothesis Hshort : length a < 200.

Lemma b2j_fold_complete (l : list (nat * ascii)) (m : gmap ascii (list nat))
    (i : nat) (e : ascii) :
  (i, e) ∈ l ∨ (∃ js, m !! e = Some js ∧ i ∈ js) →
  ∃ js,
    foldl (fun (b2j : gmap ascii (list nat)) (ie : nat * ascii) =>
             <[ie.2 := default [] (b2j !! ie.2) ++ [ie.1]]> b2j) m l !! e = Some js
    ∧ i ∈ js.
Proof.
  revert m. induction l as [|[i0 e0] l IH]; intros m Hin; cbn [foldl].
  - destruct Hin as [Hin|Hin]; [by apply elem_of_nil in Hin|done].
  - apply IH. cbn [fst snd].
    destruct Hin as [Hin|(js & Hjs & Hi)].
    + apply elem_of_cons in Hin as [[= -> ->]|Hin]; [|by left].
      right. eexists. rewrite lookup_insert_eq. split; [done|].
      apply elem_of_app. right. by left.
    + right. destruct (decide (e = e0)) as [->|Hne].
      * eexists. rewrite lookup_insert_eq. split; [done|].
        rewrite Hjs. apply elem_of_app. by left.
      * exists js. by rewrite lookup_insert_ne.
Qed.

Lemma positions_self (i : nat) : i < length a → i ∈ positions a a i.
Proof.
  intros Hi. destruct (lookup_lt_is_Some_2 a i Hi) as [x Hx].
  unfold positions, chain_b. rewrite Hx.
  destruct (Nat.leb_spec 200 (length a)) as [H|_]; [lia|].
  unfold b2j_all.
  destruct (b2j_fold_complete (imap pair a) ∅ i x) as (js & -> & Hjs); [|done].
  left. apply elem_of_lookup_imap. by exists i, x.
Qed.

Lemma flm_row_diag (n i : nat) (j2len : gmap nat nat) (js : list nat)
    (newj2len : gmap nat nat) (best : Match) :
  (∀ j, j ∈ js → j < n) →
  i ∈ js ∨ (newj2len !! i = Some (j2len_get j2len i + 1)
            ∧ j2len_get j2len i + 1 ≤ blk_size best) →
  (flm_row 0 n i j2len js newj2len best).1 !! i = Some (j2len_get j2len i + 1)
  ∧ j2len_get j2len i + 1 ≤ blk_size (flm_row 0 n i j2len js newj2len best).2.
Proof.
  revert newj2len best.
  induction js as [|j js IH]; intros newj2len best Hlt Hin; cbn [flm_row].
  { destruct Hin as [Hin|Hin]; [by apply elem_of_nil in Hin|done]. }
  assert (j < n) as Hj by (apply Hlt; by left).
  change (j <? 0) with false. cbn iota.
  destruct (Nat.leb_spec n j) as [?|_]; [lia|].
  apply IH; [intros j' Hj'; apply Hlt; by right|].
  destruct (decide (j = i)) as [->|Hne].
  - right. rewrite lookup_insert_eq. split; [done|].
    destruct (Nat.ltb_spec (blk_size best) (j2len_get j2len i + 1)); cbn [blk_size]; lia.
  - destruct Hin as [Hin|[Hnew Hbest]].
    + apply elem_of_cons in Hin as [->|Hin]; [done|by left].
    + right. rewrite lookup_insert_ne by done. split; [done|].
      destruct (Nat.ltb_spec (blk_size best) (j2len_get j2len j + 1)); cbn [blk_size]; lia.
Qed.

Lemma flm_fold_diag (m i : nat) (st : gmap nat nat * Match) :
  i + m ≤ length a →
  j2len_get st.1 i = i → i ≤ blk_size st.2 →
  i + m
  ≤ blk_size (foldl (fun (st : gmap nat nat * Match) (i : nat) =>
                       flm_row 0 (length a) i st.1 (positions a a i) ∅ st.2)
                st (seq i m)).2.
Proof.
  revert i st. induction m as [|m IH]; intros i st Hle Hget Hbest; cbn [seq foldl].
  { lia. }
  destruct (flm_row_diag (length a) i st.1 (positions a a i) ∅ st.2) as [H1 H2].
  - intros j Hj. apply DifflibBlocks.positions_sound in Hj.
    destruct (lookup_lt_is_Some_2 a i ltac:(lia)) as [x Hx].
    rewrite Hx in Hj. symmetry in Hj. by apply lookup_lt_Some in Hj.
  - left. apply positions_self. lia.
  - rewrite Hget in H1, H2.
    replace (i + S m) with (S i + m) by lia. apply IH; [lia| |lia].
    cbn [j2len_get]. rewrite H1. cbn. lia.
Qed.

Lemma find_longest_match_self :
  find_longest_match a a 0 (length a) 0 (length a) = mkMatch 0 0 (length a).
Proof.
  assert (flm_scan a a 0 (length a) 0 (length a) = mkMatch 0 0 (length a)) as Hscan.
  { pose proof (DifflibBlocks.flm_scan_valid a a 0 (length a) 0 (length a)
                  ltac:(lia) ltac:(lia)) as (_ & Ha & _ & Hb & _).
    assert (length a ≤ blk_size (flm_scan a a 0 (length a) 0 (length a))) as Hsize.
    { unfold flm_scan. rewrite Nat.sub_0_r.
      apply (flm_fold_diag (length a) 0 (∅, mkMatch 0 0 0)); cbn; lia. }
    destruct (flm_scan a a 0 (length a) 0 (length a)) as [i j k].
    cbn [blk_a blk_b blk_size] in *. f_equal; lia. }
  unfold find_longest_match. rewrite Hscan. cbn [blk_a blk_b blk_size].
  change (0 - 0) with 0. cbn [grow_left]. cbn [blk_a blk_b blk_size].
  change (0 + length a) with (length a). rewrite Nat.sub_diag.
  cbn [grow_right blk_a blk_b blk_size]. change (0 - 0) with 0.
  cbn [grow_left blk_a blk_b blk_size].
  change (0 + length a) with (length a). rewrite Nat.sub_diag. reflexivity.
Qed.

Lemma calculate_ratio_full (n : nat) : (calculate_ratio n (n + n) == 1)%Q.
Proof.
  destruct n as [|n]; [reflexivity|].
  unfold calculate_ratio. replace (S n + S n) with (S (n + S n)) by lia.
  assert (Z.pos (Pos.of_nat (S (n + S n))) = Z.of_nat (S (n + S n))) as Hd
    by (rewrite <- positive_nat_Z, Nat2Pos.id by lia; done).
  unfold Qeq. cbn [Qnum Qden]. rewrite Hd. lia.
Qed.

Lemma matches_self : matches a a = length a.
Proof.
  unfold matches, get_matching_blocks, raw_blocks, gmb_fuel.
  rewrite Nat.add_1_r. cbn [gmb_loop]. rewrite find_longest_match_self.
  cbn [blk_a blk_b blk_size].
  destruct (length a) as [|n] eqn:En; [reflexivity|].
  change (S n =? 0) with false. cbn iota.
  change (0 <? 0) with false. change (0 + S n) with (S n).
  rewrite Nat.ltb_irrefl. cbn [andb app gmb_loop default].
  change (merge_sort match_le [mkMatch 0 0 (S n)]) with [mkMatch 0 0 (S n)].
  unfold collapse, collapse_step. cbn.
  rewrite (bool_decide_eq_true_2 (0 = 0)) by done. cbn. lia.
Qed.

(** A sequence of less than 200 elements has ratio 1 with itself. *)
Lemma ratio_self : (ratio a a == 1)%Q.
Proof. unfold ratio. rewrite matches_self. apply calculate_ratio_full. Qed.

End Self.
End SelfRatio.

(** X20. An item whose lower-cased form is one of the whitespace-separated
    tokens of the text, and is shorter than 200 characters, is always
    reported by the matcher, also when it begins or ends with a non-word
    character and the exact search misses it. *)
Theorem token_item_found (text item : string) (items : list string) :
  item ∈ items →
  PyStr.lower item ∈ PyStr.split text →
  String.length item < 200 →
  item ∈ extract_items_from_text text items.
Proof.
  intros Hin Htok Hlen.
  rewrite CloseMatches.extract_items_from_text_filter, list_elem_of_filter.
  split; [|done]. apply orb_true_iff. right.
  apply CloseMatches.fuzzy_match_ratio. exists (PyStr.lower item). split; [done|].
  rewrite SelfRatio.ratio_self; [unfold Qle; simpl; lia|].
  by rewrite TextFacts.chars_length, TextFacts.lower_length.
Qed.

Lemma token_item_found_witness :
  "C++" ∈ extract_items_from_text "java c++ python" ["Java"; "Python"; "C++"]
  ∧ exact_match "java c++ python" "C++" = false.
Proof.
  split; [|vm_compute; reflexivity].
  apply (token_item_found "java c++ python" "C++" ["Java"; "Python"; "C++"]).
  - apply (bool_decide_unpack _). vm_compute. exact I.
  - apply (bool_decide_unpack _). vm_compute. exact I.
  - simpl. lia.
Defined.

(** ** More text *)

Module MoreText.
Import PyStr Re.

Lemma split_chars_app (tok s1 s2 : list ascii) (sep : ascii) :
  isspace sep = true →
  split_chars tok (s1 ++ sep :: s2) = split_chars tok s1 ++ split_chars [] s2.
Proof.
  intros Hsep. revert tok.
  induction s1 as [|c s1 IH]; intros tok; cbn [app split_chars].
  - rewrite Hsep. by destruct tok.
  - destruct (isspace c); [|apply IH].
    destruct tok; rewrite IH; done.
Qed.

Lemma split_app (s1 s2 : string) (sep : ascii) :
  isspace sep = true →
  split (s1 +:+ String sep s2) = split s1 ++ split s2.
Proof.
  intros Hsep. unfold split. rewrite ReFacts.chars_app.
  change (chars (String sep s2)) with (sep :: chars s2).
  by rewrite split_chars_app, map_app.
Qed.

Lemma word_opt_head_app (l more : list ascii) (sep : ascii) :
  isspace sep = true →
  word_opt (head (l ++ sep :: more)) = word_opt (head l).
Proof.
  intros Hsep. destruct l; [|done]. cbn. by apply MatcherFacts.space_not_word.
Qed.

Lemma word_opt_last_app (l more : list ascii) (sep : ascii) :
  isspace sep = true →
  word_opt (last ((more ++ [sep]) ++ l)) = word_opt (last l).
Proof.
  intros Hsep. rewrite last_app. destruct (last l) eqn:E; [done|].
  rewrite last_snoc. cbn. by apply MatcherFacts.space_not_word.
Qed.

Lemma exact_match_app_r (text more item : string) (sep : ascii) :
  isspace sep = true →
  exact_match text item = true →
  exact_match (text +:+ String sep more) item = true.
Proof.
  intros Hsep. rewrite !MatcherFacts.exact_match_spec.
  intros (pre & suf & Heq & Hb1 & Hb2).
  exists pre, (suf ++ sep :: chars more).
  rewrite ReFacts.chars_app. change (chars (String sep more)) with (sep :: chars more).
  split; [by rewrite Heq, <- !(assoc_L (++))|].
  unfold at_boundary in *.
  rewrite (assoc_L (++)), !word_opt_head_app by done.
  done.
Qed.

Lemma exact_match_app_l (text more item : string) (sep : ascii) :
  isspace sep = true →
  exact_match text item = true →
  exact_match (more +:+ String sep text) item = true.
Proof.
  intros Hsep. rewrite !MatcherFacts.exact_match_spec.
  intros (pre & suf & Heq & Hb1 & Hb2).
  exists ((chars more ++ [sep]) ++ pre), suf.
  rewrite ReFacts.chars_app. change (chars (String sep text)) with (sep :: chars text).
  split; [rewrite Heq, <- !(assoc_L (++)); done|].
  unfold at_boundary in *.
  rewrite <- (assoc_L (++) (chars more ++ [sep]) pre), !word_opt_last_app by done.
  done.
Qed.

Lemma fuzzy_match_mono (text text' item : string) :
  split text ⊆ split text' →
  fuzzy_match text item = true → fuzzy_match text' item = true.
Proof.
  intros Hsub. rewrite !CloseMatches.fuzzy_match_ratio.
  intros (t & Ht & Hr). exists t. split; [by apply Hsub|done].
Qed.

Lemma filter_sublist_impl {A : Type} (P1 P2 : A → Prop)
    `{!∀ x, Decision (P1 x), !∀ x, Decision (P2 x)} (l : list A) :
  (∀ x, P1 x → P2 x) → filter P1 l `sublist_of` filter P2 l.
Proof.
  intros Himp. induction l as [|x l IH]; [done|].
  rewrite !filter_cons.
  destruct (decide (P1 x)) as [H1|H1].
  - rewrite decide_True by auto. by apply sublist_skip.
  - destruct (decide (P2 x)); [by apply sublist_cons|done].
Qed.

Lemma extract_items_mono (text text' : string) (items : list string) :
  (∀ item, exact_match text item = true → exact_match text' item = true) →
  split text ⊆ split text' →
  extract_items_from_text text items `sublist_of` extract_items_from_text text' items.
Proof.
  intros Hexact Hsub. rewrite !CloseMatches.extract_items_from_text_filter.
  apply filter_sublist_impl. intros item [H|H]%orb_true_iff; apply orb_true_iff.
  - left. by apply Hexact.
  - right. by apply (fuzzy_match_mono text).
Qed.

End MoreText.

(** X21. Text added to a resume after or before a whitespace character
    never loses an item and never lowers a category score: what the
    matcher finds in the resume it still finds, in the same order, in the
    longer text. *)
Theorem more_text_never_loses (text more : string) (sep : ascii) (items : list string) :
  PyStr.isspace sep = true →
  ∀ text' : string,
    text' = text +:+ String sep more ∨ text' = more +:+ String sep text →
    extract_items_from_text text items `sublist_of` extract_items_from_text text' items
    ∧ ∃ q q' : Q,
        calculate_match (extract_items_from_text text items) items = Ok q
        ∧ calculate_match (extract_items_from_text text' items) items = Ok q'
        ∧ (q <= q')%Q.
Proof.
  intros Hsep text' Htext'.
  assert (extract_items_from_text text items
            `sublist_of` extract_items_from_text text' items) as Hsub.
  { destruct Htext' as [-> | ->]; apply MoreText.extract_items_mono.
    - intros item. by apply MoreText.exact_match_app_r.
    - rewrite MoreText.split_app by done. intros x Hx. apply elem_of_app. by left.
    - intros item. by apply MoreText.exact_match_app_l.
    - rewrite MoreText.split_app by done. intros x Hx. apply elem_of_app. by right. }
  split; [exact Hsub|].
  eexists _, _. split; [apply calculate_match_value|]. split; [apply calculate_match_value|].
  destruct items as [|i items]; [lra|].
  apply fraction_mono; [|done].
  apply matched_set_mono. intros x _ Hx. revert x Hx. by apply sublist_subseteq.
Qed.

Lemma more_text_never_loses_witness :
  extract_items_from_text "python developer" ["Python"; "SQL"]
    `sublist_of` extract_items_from_text "python developer sql" ["Python"; "SQL"].
Proof.
  destruct (more_text_never_loses "python developer" "sql" " " ["Python"; "SQL"]
              eq_refl "python developer sql" (or_introl eq_refl)) as [H _].
  exact H.
Defined.
